(** * Dining philosophers: [BinarySemaphore] and [PhilosophersSync]

    A shallow embedding of the two C++ classes, and of the threads that call
    them, followed by the properties of the arbitration engine.

    - [size_t] values are integers in [Z] with the 64-bit wrap-around of
      unsigned arithmetic written out ([wrap]).
    - [std::vector] is a list read and written by index; an index that is
      out of range, and a remainder by zero, are undefined behaviour in the
      source and make the embedded operation return [None].
    - The member functions that run under the engine's mutex are written in
      a small state monad [M] over the engine that also records which gates
      were released, in order.
    - Blocking is modelled on threads: every thread has a program point, and
      [step] moves one thread by one atomic action (taking or dropping the
      engine's mutex, running a critical section, entering or leaving the
      wait inside [acquire]).
    - Of the two tests of the file, [BinarySemaphoreTest.Basic] is a system
      of two threads of its own, and of [DiningPhilosophersTest.Basic] the
      loop of the monitor and the calling discipline of the philosophers
      are taken; its sleeps and its clock are not. *)

From Stdlib Require Import ZArith Lia List.
From stdpp Require Import base option list.
Import ListNotations.

Local Open Scope Z_scope.

(** ** Unsigned 64-bit arithmetic *)

Definition size_t_modulus : Z := 2 ^ 64.

Definition wrap (z : Z) : Z := z mod size_t_modulus.

(** ** [enum class State] *)

Inductive State : Type :=
| THINKING
| HUNGRY
| EATING.

Definition State_eqb (a b : State) : bool :=
  match a, b with
  | THINKING, THINKING | HUNGRY, HUNGRY | EATING, EATING => true
  | _, _ => false
  end.

(** ** [class BinarySemaphore]

    The gate keeps one counter [v_]. Its own mutex makes the body of
    [release] and each locked stretch of [acquire] atomic, so each is one
    function here. [cv_.notify_one()] has no function of its own: a parked
    caller may test the predicate of its wait at any time, which is what a
    notification or a spurious wake-up makes it do. *)

Module BinarySemaphore.

Record t : Type := Make { v_ : Z }.

(** [BinarySemaphore(size_t v = 0)]: the value is clamped into [0..1]. *)
Definition new (v : Z) : t := {| v_ := Z.min 1 (Z.max 0 v) |}.

(** [release()]: stores 1, whatever the value was. *)
Definition release (g : t) : t := {| v_ := 1 |}.

(** What the caller of [acquire()] does after its first locked stretch:
    it has returned, or it is parked inside [cv_.wait]. *)
Inductive entered : Type :=
| Returned (g : t)
| Parked (g : t).

(** [acquire()], from the call up to the return or the first wait:
    a value of 1 is reset to 0 and the call returns; otherwise the caller
    waits, and the gate is left as it was. *)
Definition acquire_enter (g : t) : entered :=
  if v_ g =? 1 then Returned {| v_ := 0 |} else Parked g.

(** [cv_.wait(lg, pred)] for a parked caller: when the predicate
    [v_ == 1] holds the wait ends and [acquire()] returns, with nothing
    written to [v_]; otherwise the caller stays parked ([None]). *)
Definition acquire_wake (g : t) : option t :=
  if v_ g =? 1 then Some g else None.

Definition available (g : t) : Prop := v_ g = 1.
Definition unavailable (g : t) : Prop := v_ g = 0.

End BinarySemaphore.

(** ** [class PhilosophersSync] *)

(** The engine's mutex [m_] is free ([None]) or held by a thread. *)
Record PhilosophersSync : Type := Engine {
  numPhils_ : Z;
  m_ : option nat;
  states_ : list State;
  sems_ : list BinarySemaphore.t
}.

Definition with_m (o : option nat) (e : PhilosophersSync) : PhilosophersSync :=
  {| numPhils_ := numPhils_ e; m_ := o; states_ := states_ e; sems_ := sems_ e |}.

Definition with_states (l : list State) (e : PhilosophersSync) : PhilosophersSync :=
  {| numPhils_ := numPhils_ e; m_ := m_ e; states_ := l; sems_ := sems_ e |}.

Definition with_sems (l : list BinarySemaphore.t) (e : PhilosophersSync)
  : PhilosophersSync :=
  {| numPhils_ := numPhils_ e; m_ := m_ e; states_ := states_ e; sems_ := l |}.

(** The constructor's loop: [i] runs from the current value up to
    [numPhils_], one [push_back] of a gate built with 0 per round. *)
Fixpoint push_sems (rounds : nat) (sems : list BinarySemaphore.t)
  : list BinarySemaphore.t :=
  match rounds with
  | O => sems
  | S k => push_sems k (sems ++ [BinarySemaphore.new 0])
  end.

(** [PhilosophersSync(size_t n)]. The result is optional so that a failed
    construction could be told apart from a finished one; the source has no
    path that rejects an [n]. *)
Definition PhilosophersSync_new (n : Z) : option PhilosophersSync :=
  Some {| numPhils_ := n;
          m_ := None;
          states_ := repeat THINKING (Z.to_nat n);
          sems_ := push_sems (Z.to_nat n) [] |}.

(** ** The monad of the locked member functions *)

(** A call of [sems_[pid]->release()]. *)
Inductive Event : Type :=
| Release (pid : Z).

Definition M (A : Type) : Type :=
  PhilosophersSync -> option (A * PhilosophersSync * list Event).

Definition ret {A} (a : A) : M A := fun e => Some (a, e, []).

Definition bind {A B} (m : M A) (f : A -> M B) : M B :=
  fun e =>
    match m e with
    | None => None
    | Some (a, e1, tr1) =>
        match f a e1 with
        | None => None
        | Some (b, e2, tr2) => Some (b, e2, tr1 ++ tr2)
        end
    end.

Definition undefined {A} : M A := fun _ => None.

Declare Scope engine_scope.
Delimit Scope engine_scope with engine.
Notation "'let*' x := m 'in' k" := (bind m (fun x => k))
  (at level 10, x name, m at level 100, k at level 200) : engine_scope.
Local Open Scope engine_scope.

Definition get_numPhils : M Z := fun e => Some (numPhils_ e, e, []).

(** [v[i]] for a vector [v] and a [size_t] index [i]: defined for
    [0 <= i < v.size()] only. *)
Definition vec_get {A} (v : list A) (i : Z) : option A :=
  if i <? 0 then None else v !! Z.to_nat i.

Definition state_at (e : PhilosophersSync) (i : Z) : option State :=
  vec_get (states_ e) i.

Definition sem_at (e : PhilosophersSync) (i : Z) : option BinarySemaphore.t :=
  vec_get (sems_ e) i.

(** [states_[i]] as an rvalue. *)
Definition read_state (i : Z) : M State :=
  fun e =>
    match state_at e i with
    | Some s => Some (s, e, [])
    | None => None
    end.

(** [states_[i] = s]. *)
Definition write_state (i : Z) (s : State) : M unit :=
  fun e =>
    match state_at e i with
    | Some _ => Some (tt, with_states (<[Z.to_nat i := s]> (states_ e)) e, [])
    | None => None
    end.

(** [sems_[i]->release()]. *)
Definition release_sem (i : Z) : M unit :=
  fun e =>
    match sem_at e i with
    | Some g =>
        Some (tt,
              with_sems (<[Z.to_nat i := BinarySemaphore.release g]> (sems_ e)) e,
              [Release i])
    | None => None
    end.

(** [a % b] on [size_t]. *)
Definition rem (a b : Z) : M Z :=
  if b =? 0 then undefined else ret (a mod b).

(** [(pid + numPhils_ - 1) % numPhils_] and [(pid + 1) % numPhils_]. *)
Definition left_of (pid : Z) : M Z :=
  let* n := get_numPhils in rem (wrap (wrap (pid + n) - 1)) n.

Definition right_of (pid : Z) : M Z :=
  let* n := get_numPhils in rem (wrap (pid + 1)) n.

(** [tryToEat(pid)]; the three tests are evaluated left to right and stop
    at the first that fails. *)
Definition tryToEat (pid : Z) : M unit :=
  let* s := read_state pid in
  if negb (State_eqb s HUNGRY) then ret tt else
  let* l := left_of pid in
  let* sl := read_state l in
  if State_eqb sl EATING then ret tt else
  let* r := right_of pid in
  let* sr := read_state r in
  if State_eqb sr EATING then ret tt else
  let* _ := write_state pid EATING in
  release_sem pid.

(** The block of [takeForks(pid)] that runs under [m_]. *)
Definition takeForks_locked (pid : Z) : M unit :=
  let* _ := write_state pid HUNGRY in
  tryToEat pid.

(** The body of [putForks(pid)], all of it under [m_]. *)
Definition putForks_locked (pid : Z) : M unit :=
  let* _ := write_state pid THINKING in
  let* r := right_of pid in
  let* _ := tryToEat r in
  let* l := left_of pid in
  tryToEat l.

(** The block of [getStates()] that runs under [m_]: [res = states_]. *)
Definition getStates_locked : M (list State) :=
  fun e => Some (states_ e, e, []).

(** ** Threads

    A thread is outside the engine ([Idle]) or at one of the points of a
    member function between two atomic actions. *)

Inductive Op : Type :=
| CallTakeForks (pid : Z)
| CallPutForks (pid : Z)
| CallGetStates.

Inductive Pc : Type :=
| Idle
| TakeForks_lock (pid : Z)      (* before [lock_guard lg(m_)] *)
| TakeForks_body (pid : Z)      (* inside the block, [m_] held *)
| TakeForks_unlock (pid : Z)    (* at the closing brace of the block *)
| TakeForks_acquire (pid : Z)   (* before [sems_[pid]->acquire()] *)
| TakeForks_wait (pid : Z)      (* parked in [cv_.wait] of that gate *)
| PutForks_lock (pid : Z)
| PutForks_body (pid : Z)
| PutForks_unlock (pid : Z)
| GetStates_lock
| GetStates_body
| GetStates_unlock (res : list State). (* [res] filled, before [return res] *)

(** [lock_guard lg(m_)] by thread [t]: possible only when [m_] is free. *)
Definition lock (t : nat) (e : PhilosophersSync) : option PhilosophersSync :=
  match m_ e with
  | None => Some (with_m (Some t) e)
  | Some _ => None
  end.

(** The destructor of the [lock_guard]. *)
Definition unlock (e : PhilosophersSync) : PhilosophersSync := with_m None e.

(** [sems_[pid]->acquire()], first stretch, by a thread of the engine. *)
Definition acquire_sem (pid : Z) (e : PhilosophersSync)
  : option (PhilosophersSync * Pc) :=
  match sem_at e pid with
  | None => None
  | Some g =>
      match BinarySemaphore.acquire_enter g with
      | BinarySemaphore.Returned g' =>
          Some (with_sems (<[Z.to_nat pid := g']> (sems_ e)) e, Idle)
      | BinarySemaphore.Parked g' =>
          Some (with_sems (<[Z.to_nat pid := g']> (sems_ e)) e, TakeForks_wait pid)
      end
  end.

(** The end of the wait of a thread parked on gate [pid]. *)
Definition wake_sem (pid : Z) (e : PhilosophersSync)
  : option (PhilosophersSync * Pc) :=
  match sem_at e pid with
  | None => None
  | Some g =>
      match BinarySemaphore.acquire_wake g with
      | Some g' => Some (with_sems (<[Z.to_nat pid := g']> (sems_ e)) e, Idle)
      | None => None
      end
  end.

(** One atomic action of thread [t] standing at [p]. An [Idle] thread
    takes the call it is given; a thread inside a call takes no argument.
    [None]: the action is not enabled (the mutex is held, the gate is not
    available) or has no defined behaviour. *)
Definition next (t : nat) (p : Pc) (o : option Op) (e : PhilosophersSync)
  : option (PhilosophersSync * Pc) :=
  match p, o with
  | Idle, Some (CallTakeForks pid) => Some (e, TakeForks_lock pid)
  | Idle, Some (CallPutForks pid) => Some (e, PutForks_lock pid)
  | Idle, Some CallGetStates => Some (e, GetStates_lock)
  | TakeForks_lock pid, None =>
      match lock t e with
      | Some e' => Some (e', TakeForks_body pid)
      | None => None
      end
  | TakeForks_body pid, None =>
      match takeForks_locked pid e with
      | Some (_, e', _) => Some (e', TakeForks_unlock pid)
      | None => None
      end
  | TakeForks_unlock pid, None => Some (unlock e, TakeForks_acquire pid)
  | TakeForks_acquire pid, None => acquire_sem pid e
  | TakeForks_wait pid, None => wake_sem pid e
  | PutForks_lock pid, None =>
      match lock t e with
      | Some e' => Some (e', PutForks_body pid)
      | None => None
      end
  | PutForks_body pid, None =>
      match putForks_locked pid e with
      | Some (_, e', _) => Some (e', PutForks_unlock pid)
      | None => None
      end
  | PutForks_unlock pid, None => Some (unlock e, Idle)
  | GetStates_lock, None =>
      match lock t e with
      | Some e' => Some (e', GetStates_body)
      | None => None
      end
  | GetStates_body, None =>
      match getStates_locked e with
      | Some (res, e', _) => Some (e', GetStates_unlock res)
      | None => None
      end
  | GetStates_unlock res, None => Some (unlock e, Idle)
  | _, _ => None
  end.

Record System : Type := Sys {
  engine : PhilosophersSync;
  threads : list Pc
}.

Definition step (t : nat) (o : option Op) (σ : System) : option System :=
  match threads σ !! t with
  | None => None
  | Some p =>
      match next t p o (engine σ) with
      | Some (e', p') =>
          Some {| engine := e'; threads := <[t := p']> (threads σ) |}
      | None => None
      end
  end.

(** A schedule names, action by action, the thread that moves. *)
Fixpoint run (sched : list (nat * option Op)) (σ : System) : option System :=
  match sched with
  | [] => Some σ
  | (t, o) :: rest =>
      match step t o σ with
      | Some σ' => run rest σ'
      | None => None
      end
  end.

(** The engine as constructed, with [k] threads outside it. *)
Definition boot (n : Z) (k : nat) : option System :=
  match PhilosophersSync_new n with
  | Some e => Some {| engine := e; threads := repeat Idle k |}
  | None => None
  end.

Definition reachable (n : Z) (k : nat) (σ : System) : Prop :=
  exists σ0 sched, boot n k = Some σ0 /\ run sched σ0 = Some σ.

(** A whole call by thread [t] with no other thread moving in between. *)
Definition takeForks_alone (t : nat) (pid : Z) : list (nat * option Op) :=
  [(t, Some (CallTakeForks pid)); (t, None); (t, None); (t, None); (t, None)].

Definition putForks_alone (t : nat) (pid : Z) : list (nat * option Op) :=
  [(t, Some (CallPutForks pid)); (t, None); (t, None); (t, None)].

(** The actions of one thread alone, on the engine and on its own
    program point. *)
Fixpoint solo (t : nat) (os : list (option Op)) (p : Pc) (e : PhilosophersSync)
  : option (PhilosophersSync * Pc) :=
  match os with
  | [] => Some (e, p)
  | o :: rest =>
      match next t p o e with
      | Some (e', p') => solo t rest p' e'
      | None => None
      end
  end.

(** Program points inside [getStates()]. *)
Definition in_getStates (p : Pc) : bool :=
  match p with
  | GetStates_lock | GetStates_body | GetStates_unlock _ => true
  | _ => false
  end.

(** ** What the claims speak of *)

(** A bound on the number of actors under which [pid + numPhils_] does not
    wrap; a vector with more entries than this cannot be allocated. *)
Definition max_actors : Z := 2 ^ 63.

(** The shape every constructed engine has. *)
Definition well_formed (e : PhilosophersSync) : Prop :=
  0 <= numPhils_ e <= max_actors /\
  length (states_ e) = Z.to_nat (numPhils_ e) /\
  length (sems_ e) = Z.to_nat (numPhils_ e).

(** No actor eats next to an eating actor. *)
Definition adjacency_exclusion (e : PhilosophersSync) : Prop :=
  forall i, 0 <= i < numPhils_ e ->
    state_at e i = Some EATING ->
    state_at e ((i - 1) mod numPhils_ e) <> Some EATING /\
    state_at e ((i + 1) mod numPhils_ e) <> Some EATING.

Definition no_two_in_a_row (e : PhilosophersSync) : Prop :=
  forall i, 0 <= i < numPhils_ e ->
    ~ (state_at e i = Some EATING /\
       state_at e ((i + 1) mod numPhils_ e) = Some EATING).

(** The test of the promotion rule. *)
Definition eligible (e : PhilosophersSync) (i : Z) : Prop :=
  state_at e i = Some HUNGRY /\
  state_at e ((i - 1) mod numPhils_ e) <> Some EATING /\
  state_at e ((i + 1) mod numPhils_ e) <> Some EATING.

(** The engine after a promotion of [i]. *)
Definition promoted (i : Z) (e : PhilosophersSync) : PhilosophersSync :=
  {| numPhils_ := numPhils_ e;
     m_ := m_ e;
     states_ := <[Z.to_nat i := EATING]> (states_ e);
     sems_ := <[Z.to_nat i := BinarySemaphore.Make 1]> (sems_ e) |}.

(** The same, for the neighbours that are other actors: what the promotion
    rule keeps in every ring, the ring of one actor included. *)
Definition separated (e : PhilosophersSync) : Prop :=
  forall i, 0 <= i < numPhils_ e ->
    state_at e i = Some EATING ->
    (i + 1) mod numPhils_ e <> i ->
    state_at e ((i + 1) mod numPhils_ e) <> Some EATING.

(** What a locked member function leaves alone. *)
Definition same_frame (e e' : PhilosophersSync) : Prop :=
  numPhils_ e' = numPhils_ e /\
  m_ e' = m_ e /\
  length (states_ e') = length (states_ e) /\
  length (sems_ e') = length (sems_ e).

(** Program points at which the thread holds the engine's mutex. *)
Definition holds_lock (p : Pc) : bool :=
  match p with
  | TakeForks_body _ | TakeForks_unlock _
  | PutForks_body _ | PutForks_unlock _
  | GetStates_body | GetStates_unlock _ => true
  | _ => false
  end.

(** The mutex is held by a thread exactly when that thread is at such
    a point. *)
Definition lock_discipline (σ : System) : Prop :=
  forall t p, threads σ !! t = Some p ->
    (m_ (engine σ) = Some t <-> holds_lock p = true).

(** How one action moves the mutex: not at all, from free to the acting
    thread, or from the acting thread to free. *)
Inductive lock_move (t : nat) (e e' : PhilosophersSync) (p p' : Pc) : Prop :=
| lock_kept :
    m_ e' = m_ e -> holds_lock p' = holds_lock p -> lock_move t e e' p p'
| lock_taken :
    m_ e = None -> m_ e' = Some t ->
    holds_lock p = false -> holds_lock p' = true -> lock_move t e e' p p'
| lock_dropped :
    m_ e' = None ->
    holds_lock p = true -> holds_lock p' = false -> lock_move t e e' p p'.

(** A locked member function that writes neither [m_] nor [numPhils_]. *)
Definition keeps_lock {A} (m : M A) : Prop :=
  forall e a e' tr, m e = Some (a, e', tr) ->
    m_ e' = m_ e /\ numPhils_ e' = numPhils_ e.

(** What holds of the engine in every state the threads can bring about. *)
Definition engine_invariant (n : Z) (e : PhilosophersSync) : Prop :=
  numPhils_ e = n /\ well_formed e /\ separated e.

(** ** States and schedules used as examples *)

(** What the kept permit does to the engine: three actors, two threads.
    Thread 1 has once waited in [takeForks(1)] and been woken; on a later
    [takeForks(1)], made while actor 0 is EATING, the call returns at once
    although actor 1 is only HUNGRY. *)
Definition woken_then_unblocked : list (nat * option Op) :=
  takeForks_alone 0 0
  ++ [(1%nat, Some (CallTakeForks 1)); (1%nat, None); (1%nat, None);
      (1%nat, None); (1%nat, None)]
  ++ putForks_alone 0 0
  ++ [(1%nat, None)]
  ++ putForks_alone 1 1
  ++ takeForks_alone 0 0
  ++ takeForks_alone 1 1.

(** One actor, one thread, after [takeForks(0)]. *)
Definition single_actor_eating : System :=
  {| engine := {| numPhils_ := 1;
                  m_ := None;
                  states_ := [EATING];
                  sems_ := [BinarySemaphore.Make 0] |};
     threads := [Idle] |}.

(** Three actors, two threads: actor 0 eats, thread 1 is parked in
    [takeForks(1)]. *)
Definition one_eating_one_parked : System :=
  {| engine := {| numPhils_ := 3;
                  m_ := None;
                  states_ := [EATING; HUNGRY; THINKING];
                  sems_ := [BinarySemaphore.Make 0;
                            BinarySemaphore.Make 0;
                            BinarySemaphore.Make 0] |};
     threads := [Idle; TakeForks_wait 1] |}.

Definition to_one_eating_one_parked : list (nat * option Op) :=
  takeForks_alone 0 0
  ++ [(1%nat, Some (CallTakeForks 1)); (1%nat, None); (1%nat, None);
      (1%nat, None); (1%nat, None)].

(** Three actors, two threads: actor 0 eats, thread 1 is inside
    [getStates()] with the mutex. *)
Definition one_eating_one_reading : System :=
  {| engine := {| numPhils_ := 3;
                  m_ := Some 1%nat;
                  states_ := [EATING; THINKING; THINKING];
                  sems_ := [BinarySemaphore.Make 0;
                            BinarySemaphore.Make 0;
                            BinarySemaphore.Make 0] |};
     threads := [Idle; GetStates_body] |}.

Definition to_one_eating_one_reading : list (nat * option Op) :=
  takeForks_alone 0 0 ++ [(1%nat, Some CallGetStates); (1%nat, None)].

(** Three actors: actor 0 eats, both neighbours are HUNGRY. *)
Definition both_neighbours_hungry : PhilosophersSync :=
  {| numPhils_ := 3;
     m_ := Some 0%nat;
     states_ := [EATING; HUNGRY; HUNGRY];
     sems_ := [BinarySemaphore.Make 0;
               BinarySemaphore.Make 0;
               BinarySemaphore.Make 0] |}.

(** ** Further notions: gates, wake-ups, the callers of the file *)

(** A gate value of 0 or 1. *)
Definition binary (g : BinarySemaphore.t) : Prop :=
  BinarySemaphore.v_ g = 0 \/ BinarySemaphore.v_ g = 1.

Definition gates_binary (e : PhilosophersSync) : Prop :=
  Forall binary (sems_ e).

(** No actor passes the test of the promotion rule: whoever is HUNGRY has
    an EATING neighbour. *)
Definition settled (e : PhilosophersSync) : Prop :=
  forall i, 0 <= i < numPhils_ e -> ~ eligible e i.

(** An EATING actor [pid] whose gate holds the permit of its promotion. *)
Definition permit_kept (e : PhilosophersSync) (pid : Z) : Prop :=
  state_at e pid = Some EATING ->
  exists g, sem_at e pid = Some g /\ BinarySemaphore.available g.

(** What a locked block did to actor [k], given the record [tr] of the
    gates it released: nothing, or the promotion with its one release. *)
Definition left_alone (k : Z) (e e' : PhilosophersSync) (tr : list Event)
  : Prop :=
  state_at e' k = state_at e k /\ sem_at e' k = sem_at e k /\
  ~ In (Release k) tr.

Definition woken (k : Z) (e e' : PhilosophersSync) (tr : list Event) : Prop :=
  state_at e k = Some HUNGRY /\ state_at e' k = Some EATING /\
  sem_at e' k = Some (BinarySemaphore.Make 1) /\ In (Release k) tr.

(** Three actors, all THINKING, the mutex held by thread 0. *)
Definition all_thinking : PhilosophersSync :=
  {| numPhils_ := 3;
     m_ := Some 0%nat;
     states_ := [THINKING; THINKING; THINKING];
     sems_ := [BinarySemaphore.Make 0;
               BinarySemaphore.Make 0;
               BinarySemaphore.Make 0] |}.

(** The actor index a thread inside [takeForks] or [putForks] works on. *)
Definition pc_pid (p : Pc) : option Z :=
  match p with
  | TakeForks_lock pid | TakeForks_body pid | TakeForks_unlock pid
  | TakeForks_acquire pid | TakeForks_wait pid
  | PutForks_lock pid | PutForks_body pid | PutForks_unlock pid => Some pid
  | _ => None
  end.

(** ** [TEST(DiningPhilosophersTest, Basic)]: the monitor *)

(** The loop of the monitor over one snapshot [st], from [pid] on for
    [rounds] rounds: [Some true] when it runs to its end, [Some false] when
    a [CHECK] fails (the test aborts there), [None] on an index outside
    [st]. *)
Fixpoint check_from (n : Z) (st : list State) (rounds : nat) (pid : Z)
  : option bool :=
  match rounds with
  | O => Some true
  | S k =>
      match vec_get st pid with
      | None => None
      | Some s =>
          if State_eqb s EATING then
            if n =? 0 then None else
            match vec_get st (wrap (pid + 1) mod n) with
            | None => None
            | Some s' =>
                if State_eqb s' EATING then Some false
                else check_from n st k (wrap (pid + 1))
            end
          else check_from n st k (wrap (pid + 1))
      end
  end.

(** [for (size_t pid = 0; pid < n; ++pid)] on the vector [getStates()]
    returned. *)
Definition monitor_check (n : Z) (st : list State) : option bool :=
  check_from n st (Z.to_nat n) 0.

(** Every vector a thread is about to return from [getStates()] was the
    state vector of an engine in its invariant. *)
Definition snapshots_sound (n : Z) (σ : System) : Prop :=
  forall t res, threads σ !! t = Some (GetStates_unlock res) ->
    exists e, engine_invariant n e /\ states_ e = res.

(** Three actors, two threads: actor 0 eats, thread 1 is about to return
    a snapshot from [getStates()]. *)
Definition one_eating_one_returning : System :=
  {| engine := {| numPhils_ := 3;
                  m_ := Some 1%nat;
                  states_ := [EATING; THINKING; THINKING];
                  sems_ := [BinarySemaphore.Make 0;
                            BinarySemaphore.Make 0;
                            BinarySemaphore.Make 0] |};
     threads := [Idle; GetStates_unlock [EATING; THINKING; THINKING]] |}.

Definition to_one_eating_one_returning : list (nat * option Op) :=
  to_one_eating_one_reading ++ [(1%nat, None)].

(** ** [TEST(DiningPhilosophersTest, Basic)]: the philosophers

    Thread [pid] of the test calls [takeForks(pid)] and [putForks(pid)]
    for its own index only; [getStates()] is called by whoever wants. *)

Definition own_call (c : nat * option Op) : Prop :=
  match c with
  | (t, Some (CallTakeForks pid)) | (t, Some (CallPutForks pid)) =>
      pid = Z.of_nat t
  | _ => True
  end.

Definition driver_reachable (n : Z) (k : nat) (σ : System) : Prop :=
  exists σ0 sched,
    boot n k = Some σ0 /\ Forall own_call sched /\ run sched σ0 = Some σ.

(** Program points of [takeForks] between the locked block and the
    return. *)
Definition awaits_permit (p : Pc) : bool :=
  match p with
  | TakeForks_unlock _ | TakeForks_acquire _ | TakeForks_wait _ => true
  | _ => false
  end.

(** What holds of the actor of a thread at such a point. *)
Definition asked (e : PhilosophersSync) (a : Z) : Prop :=
  permit_kept e a /\
  (state_at e a = Some HUNGRY \/ state_at e a = Some EATING).

Definition driver_invariant (σ : System) : Prop :=
  forall t p, threads σ !! t = Some p ->
    (forall pid, pc_pid p = Some pid -> pid = Z.of_nat t) /\
    (awaits_permit p = true -> asked (engine σ) (Z.of_nat t)).

(** Three actors, three threads: actor 0 eats, thread 1 is parked in
    [takeForks(1)], all by their own calls. *)
Definition driver_one_parked : System :=
  {| engine := engine one_eating_one_parked;
     threads := [Idle; TakeForks_wait 1; Idle] |}.

(** ** [TEST(BinarySemaphoreTest, Basic)]

    Two threads around one gate built with 0 and one [std::atomic<int> v]:
    the test's thread doubles [v], releases the gate, joins the adder and
    compares [v] with 3; the adder acquires the gate and increments [v].
    The initial value of [v], 1 in the source, is a parameter. *)

Module BinarySemaphoreTest.

(** [int]: 32 bits, two's complement. *)
Definition in_int (x : Z) : bool := (- 2 ^ 31 <=? x) && (x <? 2 ^ 31).

Definition int_wrap (x : Z) : Z := (x + 2 ^ 31) mod 2 ^ 32 - 2 ^ 31.

Inductive MainPc : Type :=
| Main_load                 (* before the read of [v] in [v = v * 2] *)
| Main_store (x : Z)        (* [x] read, before the write of [x * 2] *)
| Main_release              (* before [bs.release()] *)
| Main_join                 (* in [adder.join()] *)
| Main_expect               (* before [EXPECT_EQ(3, v)] *)
| Main_done (passed : bool).

Inductive AdderPc : Type :=
| Adder_acquire             (* before [bs.acquire()] *)
| Adder_wait                (* parked in [cv_.wait] *)
| Adder_incr                (* before [++v] *)
| Adder_done.

Record T : Type := Make {
  bs : BinarySemaphore.t;
  v : Z;
  main : MainPc;
  adder : AdderPc
}.

Inductive Who : Type := Main | Adder.

Definition init (v0 : Z) : T :=
  {| bs := BinarySemaphore.new 0;
     v := v0;
     main := Main_load;
     adder := Adder_acquire |}.

(** One atomic action of the test's thread. The product [x * 2] is
    computed in [int]; outside its range it has no defined value. *)
Definition step_main (τ : T) : option T :=
  match main τ with
  | Main_load =>
      Some {| bs := bs τ; v := v τ; main := Main_store (v τ); adder := adder τ |}
  | Main_store x =>
      if in_int (x * 2)
      then Some {| bs := bs τ; v := x * 2; main := Main_release;
                   adder := adder τ |}
      else None
  | Main_release =>
      Some {| bs := BinarySemaphore.release (bs τ); v := v τ;
              main := Main_join; adder := adder τ |}
  | Main_join =>
      match adder τ with
      | Adder_done =>
          Some {| bs := bs τ; v := v τ; main := Main_expect; adder := adder τ |}
      | _ => None
      end
  | Main_expect =>
      Some {| bs := bs τ; v := v τ; main := Main_done (3 =? v τ);
              adder := adder τ |}
  | Main_done _ => None
  end.

(** One atomic action of the adder. [++v] on the atomic wraps. *)
Definition step_adder (τ : T) : option T :=
  match adder τ with
  | Adder_acquire =>
      match BinarySemaphore.acquire_enter (bs τ) with
      | BinarySemaphore.Returned g =>
          Some {| bs := g; v := v τ; main := main τ; adder := Adder_incr |}
      | BinarySemaphore.Parked g =>
          Some {| bs := g; v := v τ; main := main τ; adder := Adder_wait |}
      end
  | Adder_wait =>
      match BinarySemaphore.acquire_wake (bs τ) with
      | Some g =>
          Some {| bs := g; v := v τ; main := main τ; adder := Adder_incr |}
      | None => None
      end
  | Adder_incr =>
      Some {| bs := bs τ; v := int_wrap (v τ + 1); main := main τ;
              adder := Adder_done |}
  | Adder_done => None
  end.

Definition step (w : Who) (τ : T) : option T :=
  match w with
  | Main => step_main τ
  | Adder => step_adder τ
  end.

Fixpoint run (sched : list Who) (τ : T) : option T :=
  match sched with
  | [] => Some τ
  | w :: rest =>
      match step w τ with
      | Some τ' => run rest τ'
      | None => None
      end
  end.

(** Where the two threads can be, and what [v] and the gate hold there,
    when [v] started from [v0]. *)
Definition before_release (τ : T) (x : Z) : Prop :=
  v τ = x /\ BinarySemaphore.v_ (bs τ) = 0 /\
  (adder τ = Adder_acquire \/ adder τ = Adder_wait).

Definition invariant (v0 : Z) (τ : T) : Prop :=
  match main τ with
  | Main_load => before_release τ v0
  | Main_store x => x = v0 /\ before_release τ v0
  | Main_release => before_release τ (v0 * 2)
  | Main_join =>
      (v τ = v0 * 2 /\ BinarySemaphore.v_ (bs τ) = 1 /\
       (adder τ = Adder_acquire \/ adder τ = Adder_wait)) \/
      (v τ = v0 * 2 /\ adder τ = Adder_incr) \/
      (v τ = int_wrap (v0 * 2 + 1) /\ adder τ = Adder_done)
  | Main_expect => v τ = int_wrap (v0 * 2 + 1) /\ adder τ = Adder_done
  | Main_done passed =>
      v τ = int_wrap (v0 * 2 + 1) /\ adder τ = Adder_done /\
      passed = (3 =? v τ)
  end.

(** The actions each thread still has before it, at most. *)
Definition actions_left (τ : T) : nat :=
  (match main τ with
   | Main_load => 5
   | Main_store _ => 4
   | Main_release => 3
   | Main_join => 2
   | Main_expect => 1
   | Main_done _ => 0
   end
   + match adder τ with
     | Adder_acquire => 3
     | Adder_wait => 2
     | Adder_incr => 1
     | Adder_done => 0
     end)%nat.

End BinarySemaphoreTest.

(** No neighbour of [pid], other than [pid] itself, is EATING. *)
Definition neighbours_free (e : PhilosophersSync) (pid : Z) : Prop :=
  ((pid - 1) mod numPhils_ e <> pid ->
   state_at e ((pid - 1) mod numPhils_ e) <> Some EATING) /\
  ((pid + 1) mod numPhils_ e <> pid ->
   state_at e ((pid + 1) mod numPhils_ e) <> Some EATING).

(** Three actors, two threads: actor 0 eats, thread 1 is inside the
    locked block of [takeForks(1)]. *)
Definition one_eating_one_inside : System :=
  {| engine := {| numPhils_ := 3;
                  m_ := Some 1%nat;
                  states_ := [EATING; THINKING; THINKING];
                  sems_ := [BinarySemaphore.Make 0;
                            BinarySemaphore.Make 0;
                            BinarySemaphore.Make 0] |};
     threads := [Idle; TakeForks_body 1] |}.

Definition to_one_eating_one_inside : list (nat * option Op) :=
  takeForks_alone 0 0 ++ [(1%nat, Some (CallTakeForks 1)); (1%nat, None)].

(** * Proofs *)

Lemma State_eqb_spec a b : reflect (a = b) (State_eqb a b).
Proof. destruct a, b; simpl; constructor; congruence. Qed.

(** ** Index arithmetic *)

Lemma size_t_modulus_value : size_t_modulus = 18446744073709551616.
Proof. reflexivity. Qed.

Lemma max_actors_value : max_actors = 9223372036854775808.
Proof. reflexivity. Qed.

Lemma wrap_small z : 0 <= z < size_t_modulus -> wrap z = z.
Proof. intros H. unfold wrap. now apply Z.mod_small. Qed.

Lemma mod_succ n i :
  0 <= i < n -> (i + 1) mod n = if i + 1 <? n then i + 1 else 0.
Proof.
  intros H. destruct (Z.ltb_spec (i + 1) n) as [Hlt | Hge].
  - apply Z.mod_small. lia.
  - assert (i + 1 = n) as -> by lia. apply Z_mod_same_full.
Qed.

Lemma mod_pred n i :
  0 <= i < n -> (i - 1) mod n = if i =? 0 then n - 1 else i - 1.
Proof.
  intros H. destruct (Z.eqb_spec i 0) as [-> | Hne].
  - replace (0 - 1) with (n - 1 + (-1) * n) by lia.
    rewrite Z_mod_plus_full. apply Z.mod_small. lia.
  - apply Z.mod_small. lia.
Qed.

Lemma mod_succ_range n i : 0 <= i < n -> 0 <= (i + 1) mod n < n.
Proof. intros H. apply Z.mod_pos_bound. lia. Qed.

Lemma mod_pred_range n i : 0 <= i < n -> 0 <= (i - 1) mod n < n.
Proof. intros H. apply Z.mod_pos_bound. lia. Qed.

(** Going right and then left, or left and then right, comes back. *)
Lemma mod_pred_succ n i : 0 <= i < n -> ((i + 1) mod n - 1) mod n = i.
Proof.
  intros H. rewrite (mod_succ n i H).
  destruct (Z.ltb_spec (i + 1) n).
  - rewrite mod_pred by lia. destruct (Z.eqb_spec (i + 1) 0); lia.
  - rewrite mod_pred by lia. simpl. lia.
Qed.

Lemma mod_succ_pred n i : 0 <= i < n -> ((i - 1) mod n + 1) mod n = i.
Proof.
  intros H. rewrite (mod_pred n i H).
  destruct (Z.eqb_spec i 0) as [-> | Hne].
  - rewrite mod_succ by lia. destruct (Z.ltb_spec (n - 1 + 1) n); lia.
  - rewrite mod_succ by lia. destruct (Z.ltb_spec (i - 1 + 1) n); lia.
Qed.

(** With two actors or more, an actor is not its own neighbour. *)
Lemma mod_succ_other n i : 2 <= n -> 0 <= i < n -> (i + 1) mod n <> i.
Proof.
  intros Hn H. rewrite mod_succ by lia.
  destruct (Z.ltb_spec (i + 1) n); lia.
Qed.

Lemma mod_pred_other n i : 2 <= n -> 0 <= i < n -> (i - 1) mod n <> i.
Proof.
  intros Hn H. rewrite mod_pred by lia.
  destruct (Z.eqb_spec i 0); lia.
Qed.

(** ** The neighbour expressions of the source *)

Section Neighbours.
Variable e : PhilosophersSync.
Variable pid : Z.
Hypothesis Hn : 1 <= numPhils_ e <= max_actors.
Hypothesis Hpid : 0 <= pid < numPhils_ e.

Lemma left_of_run :
  left_of pid e = Some ((pid - 1) mod numPhils_ e, e, []).
Proof using Hn Hpid.
  pose proof max_actors_value as Hmax.
  pose proof size_t_modulus_value as Hmod.
  unfold left_of, bind, get_numPhils, rem.
  destruct (Z.eqb_spec (numPhils_ e) 0) as [H0 | _]; [lia |].
  rewrite (wrap_small (pid + numPhils_ e)) by lia.
  rewrite wrap_small by lia.
  unfold ret. simpl. do 3 f_equal.
  replace (pid + numPhils_ e - 1) with (pid - 1 + 1 * numPhils_ e) by lia.
  apply Z_mod_plus_full.
Qed.

Lemma right_of_run :
  right_of pid e = Some ((pid + 1) mod numPhils_ e, e, []).
Proof using Hn Hpid.
  pose proof max_actors_value as Hmax.
  pose proof size_t_modulus_value as Hmod.
  unfold right_of, bind, get_numPhils, rem.
  destruct (Z.eqb_spec (numPhils_ e) 0) as [H0 | _]; [lia |].
  rewrite wrap_small by lia.
  reflexivity.
Qed.
End Neighbours.

(** ** Running the monad *)

Lemma bind_pure {A B} (m : M A) (f : A -> M B) e a :
  m e = Some (a, e, []) -> bind m f e = f a e.
Proof.
  intros H. unfold bind. rewrite H.
  destruct (f a e) as [[[b e2] tr2] |]; reflexivity.
Qed.

Lemma bind_run {A B} (m : M A) (f : A -> M B) e a e1 tr1 b e2 tr2 :
  m e = Some (a, e1, tr1) -> f a e1 = Some (b, e2, tr2) ->
  bind m f e = Some (b, e2, tr1 ++ tr2).
Proof. intros H1 H2. unfold bind. now rewrite H1, H2. Qed.

Lemma read_state_run e i s :
  state_at e i = Some s -> read_state i e = Some (s, e, []).
Proof. unfold read_state. now intros ->. Qed.

Lemma write_state_run e i s0 s :
  state_at e i = Some s0 ->
  write_state i s e
  = Some (tt, with_states (<[Z.to_nat i := s]> (states_ e)) e, []).
Proof. unfold write_state. now intros ->. Qed.

Lemma release_sem_run e i g :
  sem_at e i = Some g ->
  release_sem i e
  = Some (tt, with_sems (<[Z.to_nat i := BinarySemaphore.Make 1]> (sems_ e)) e,
          [Release i]).
Proof. unfold release_sem. now intros ->. Qed.

(** ** Vectors *)

Lemma vec_get_defined {A} (v : list A) i :
  0 <= i < Z.of_nat (length v) -> exists x, vec_get v i = Some x.
Proof.
  intros H. unfold vec_get.
  destruct (Z.ltb_spec i 0); [lia |].
  destruct (lookup_lt_is_Some_2 v (Z.to_nat i)) as [x Hx]; [lia |].
  now exists x.
Qed.

Lemma vec_get_range {A} (v : list A) i x :
  vec_get v i = Some x -> 0 <= i < Z.of_nat (length v).
Proof.
  unfold vec_get. destruct (Z.ltb_spec i 0) as [| Hi]; [discriminate |].
  intros Hx. apply lookup_lt_Some in Hx. lia.
Qed.

Lemma vec_get_insert {A} (v : list A) i k x :
  0 <= i < Z.of_nat (length v) -> 0 <= k ->
  vec_get (<[Z.to_nat i := x]> v) k
  = if k =? i then Some x else vec_get v k.
Proof.
  intros Hi Hk. unfold vec_get.
  destruct (Z.ltb_spec k 0); [lia |].
  destruct (Z.eqb_spec k i) as [-> | Hne].
  - apply list_lookup_insert_eq. lia.
  - apply list_lookup_insert_ne. lia.
Qed.

Lemma state_at_defined e i :
  well_formed e -> 0 <= i < numPhils_ e -> exists s, state_at e i = Some s.
Proof.
  intros (_ & Hlen & _) Hi. unfold state_at.
  apply vec_get_defined. lia.
Qed.

Lemma sem_at_defined e i :
  well_formed e -> 0 <= i < numPhils_ e -> exists g, sem_at e i = Some g.
Proof.
  intros (_ & _ & Hlen) Hi. unfold sem_at.
  apply vec_get_defined. lia.
Qed.

(** ** The promotion rule *)

Section Promotion.
Variable e : PhilosophersSync.
Variable i : Z.
Hypothesis Hwf : well_formed e.
Hypothesis Hi : 0 <= i < numPhils_ e.

Lemma tryToEat_promotes :
  eligible e i -> tryToEat i e = Some (tt, promoted i e, [Release i]).
Proof using Hwf Hi.
  intros (Hs & Hl & Hr).
  assert (1 <= numPhils_ e <= max_actors) as Hn
    by (destruct Hwf as [? _]; lia).
  destruct (state_at_defined e _ Hwf (mod_pred_range _ _ Hi)) as [sl Hsl].
  destruct (state_at_defined e _ Hwf (mod_succ_range _ _ Hi)) as [sr Hsr].
  destruct (sem_at_defined e i Hwf Hi) as [g Hg].
  unfold tryToEat.
  rewrite (bind_pure _ _ _ _ (read_state_run _ _ _ Hs)). simpl.
  rewrite (bind_pure _ _ _ _ (left_of_run e i Hn Hi)).
  rewrite (bind_pure _ _ _ _ (read_state_run _ _ _ Hsl)).
  destruct (State_eqb_spec sl EATING) as [-> | _]; [congruence |].
  rewrite (bind_pure _ _ _ _ (right_of_run e i Hn Hi)).
  rewrite (bind_pure _ _ _ _ (read_state_run _ _ _ Hsr)).
  destruct (State_eqb_spec sr EATING) as [-> | _]; [congruence |].
  erewrite bind_run;
    [ | apply (write_state_run _ _ _ EATING Hs)
      | apply (release_sem_run _ _ g); exact Hg ].
  reflexivity.
Qed.

Lemma tryToEat_skips :
  ~ eligible e i -> tryToEat i e = Some (tt, e, []).
Proof using Hwf Hi.
  intros Hne.
  assert (1 <= numPhils_ e <= max_actors) as Hn
    by (destruct Hwf as [? _]; lia).
  destruct (state_at_defined e i Hwf Hi) as [s Hs].
  destruct (state_at_defined e _ Hwf (mod_pred_range _ _ Hi)) as [sl Hsl].
  destruct (state_at_defined e _ Hwf (mod_succ_range _ _ Hi)) as [sr Hsr].
  unfold tryToEat.
  rewrite (bind_pure _ _ _ _ (read_state_run _ _ _ Hs)).
  destruct (State_eqb_spec s HUNGRY) as [-> | _]; simpl; [| reflexivity].
  rewrite (bind_pure _ _ _ _ (left_of_run e i Hn Hi)).
  rewrite (bind_pure _ _ _ _ (read_state_run _ _ _ Hsl)).
  destruct (State_eqb_spec sl EATING) as [-> | Hl]; [reflexivity |].
  rewrite (bind_pure _ _ _ _ (right_of_run e i Hn Hi)).
  rewrite (bind_pure _ _ _ _ (read_state_run _ _ _ Hsr)).
  destruct (State_eqb_spec sr EATING) as [-> | Hr]; [reflexivity |].
  exfalso. apply Hne. unfold eligible. rewrite Hs, Hsl, Hsr.
  repeat split; congruence.
Qed.

Lemma eligible_dec : eligible e i \/ ~ eligible e i.
Proof using Type.
  unfold eligible.
  destruct (state_at e i) as [[] |];
    destruct (state_at e ((i - 1) mod numPhils_ e)) as [[] |];
    destruct (state_at e ((i + 1) mod numPhils_ e)) as [[] |];
    solve [ left; repeat split; congruence
          | right; intros (? & ? & ?); congruence ].
Qed.
End Promotion.

(** C2. For an actor index [i] of a well-formed engine, with [g] the gate
    of [i], [tryToEat(i)] promotes exactly when [i] is HUNGRY and neither
    neighbour is EATING: it then writes EATING into [state[i]] and calls
    [release()] on [g] once, nothing else (the record of released gates is
    [[Release i]]); in every other case the engine is returned as it was
    and the record of released gates is empty. *)
Theorem tryToEat_promotion_rule
  (e : PhilosophersSync) (i : Z) (g : BinarySemaphore.t) :
  well_formed e -> 0 <= i < numPhils_ e -> sem_at e i = Some g ->
  (state_at e i = Some HUNGRY /\
   state_at e ((i - 1) mod numPhils_ e) <> Some EATING /\
   state_at e ((i + 1) mod numPhils_ e) <> Some EATING ->
   tryToEat i e
   = Some (tt,
           {| numPhils_ := numPhils_ e;
              m_ := m_ e;
              states_ := <[Z.to_nat i := EATING]> (states_ e);
              sems_ := <[Z.to_nat i := BinarySemaphore.release g]> (sems_ e) |},
           [Release i])) /\
  (~ (state_at e i = Some HUNGRY /\
      state_at e ((i - 1) mod numPhils_ e) <> Some EATING /\
      state_at e ((i + 1) mod numPhils_ e) <> Some EATING) ->
   tryToEat i e = Some (tt, e, [])).
Proof.
  intros Hwf Hi _. split; intros H.
  - now apply tryToEat_promotes.
  - now apply tryToEat_skips.
Qed.

(** ** The locked member functions keep the engine in shape *)

Lemma bind_inv {A B} (m : M A) (f : A -> M B) e b e2 tr :
  bind m f e = Some (b, e2, tr) ->
  exists a e1 tr1 tr2,
    m e = Some (a, e1, tr1) /\ f a e1 = Some (b, e2, tr2) /\ tr = tr1 ++ tr2.
Proof.
  unfold bind. destruct (m e) as [[[a e1] tr1] |] eqn:Hm; [| discriminate].
  destruct (f a e1) as [[[b' e2'] tr2] |] eqn:Hf; [| discriminate].
  intros [= <- <- <-]. now exists a, e1, tr1, tr2.
Qed.

Lemma same_frame_refl e : same_frame e e.
Proof. now unfold same_frame. Qed.

Lemma same_frame_trans e1 e2 e3 :
  same_frame e1 e2 -> same_frame e2 e3 -> same_frame e1 e3.
Proof. unfold same_frame. intros (? & ? & ? & ?) (? & ? & ? & ?). repeat split; congruence. Qed.

Lemma same_frame_well_formed e e' :
  same_frame e e' -> well_formed e -> well_formed e'.
Proof.
  unfold same_frame, well_formed.
  intros (-> & _ & -> & ->) H. exact H.
Qed.

Lemma same_frame_with_states e l :
  length l = length (states_ e) -> same_frame e (with_states l e).
Proof. intros H. unfold same_frame. simpl. auto. Qed.

Lemma same_frame_with_sems e l :
  length l = length (sems_ e) -> same_frame e (with_sems l e).
Proof. intros H. unfold same_frame. simpl. auto. Qed.

Lemma same_frame_promoted e i : same_frame e (promoted i e).
Proof. unfold same_frame. simpl. now rewrite !length_insert. Qed.

Lemma state_at_range e i s :
  well_formed e -> state_at e i = Some s -> 0 <= i < numPhils_ e.
Proof.
  intros (Hn & Hlen & _) H. apply vec_get_range in H. lia.
Qed.

Lemma state_at_with_states e i k s :
  well_formed e -> 0 <= i < numPhils_ e -> 0 <= k ->
  state_at (with_states (<[Z.to_nat i := s]> (states_ e)) e) k
  = if k =? i then Some s else state_at e k.
Proof.
  intros (Hn & Hlen & _) Hi Hk. unfold state_at. simpl.
  apply vec_get_insert; lia.
Qed.

Lemma state_at_promoted e i k :
  well_formed e -> 0 <= i < numPhils_ e -> 0 <= k ->
  state_at (promoted i e) k = if k =? i then Some EATING else state_at e k.
Proof.
  intros (Hn & Hlen & _) Hi Hk. unfold state_at. simpl.
  apply vec_get_insert; lia.
Qed.

(** Writing a state other than EATING cannot break the separation. *)
Lemma separated_write e i s :
  well_formed e -> 0 <= i < numPhils_ e -> s <> EATING ->
  separated e ->
  separated (with_states (<[Z.to_nat i := s]> (states_ e)) e).
Proof.
  intros Hwf Hi Hs Hsep k Hk. simpl in Hk.
  pose proof (mod_succ_range _ _ Hk) as Hk1.
  change (numPhils_ (with_states (<[Z.to_nat i:=s]> (states_ e)) e))
    with (numPhils_ e).
  rewrite !state_at_with_states by (assumption || lia).
  destruct (Z.eqb_spec k i) as [-> | Hki]; [congruence |].
  intros Hek Hne.
  destruct (Z.eqb_spec ((k + 1) mod numPhils_ e) i); [congruence |].
  now apply Hsep.
Qed.

(** A promotion made by the rule cannot break it either. *)
Lemma separated_promoted e i :
  well_formed e -> 0 <= i < numPhils_ e -> eligible e i ->
  separated e -> separated (promoted i e).
Proof.
  intros Hwf Hi (Hs & Hl & Hr) Hsep k Hk. simpl in Hk.
  pose proof (mod_succ_range _ _ Hk) as Hk1.
  change (numPhils_ (promoted i e)) with (numPhils_ e).
  rewrite !state_at_promoted by (assumption || lia).
  destruct (Z.eqb_spec k i) as [-> | Hki].
  - intros _ Hne.
    destruct (Z.eqb_spec ((i + 1) mod numPhils_ e) i); [congruence |].
    exact Hr.
  - intros Hek Hne.
    destruct (Z.eqb_spec ((k + 1) mod numPhils_ e) i) as [Heq | Hne'].
    + exfalso. apply Hl. rewrite <- Heq, mod_pred_succ by lia. exact Hek.
    + now apply Hsep.
Qed.

Lemma tryToEat_total e i :
  well_formed e -> 0 <= i < numPhils_ e ->
  exists e' tr,
    tryToEat i e = Some (tt, e', tr) /\
    same_frame e e' /\
    (separated e -> separated e').
Proof.
  intros Hwf Hi. destruct (eligible_dec e i) as [Hel | Hnel].
  - exists (promoted i e), [Release i]. split; [| split].
    + now apply tryToEat_promotes.
    + apply same_frame_promoted.
    + now apply separated_promoted.
  - exists e, []. split; [| split].
    + now apply tryToEat_skips.
    + apply same_frame_refl.
    + auto.
Qed.

Lemma write_state_total e i s :
  well_formed e -> 0 <= i < numPhils_ e ->
  write_state i s e
  = Some (tt, with_states (<[Z.to_nat i := s]> (states_ e)) e, []).
Proof.
  intros Hwf Hi. destruct (state_at_defined e i Hwf Hi) as [s0 Hs0].
  now apply (write_state_run _ _ s0).
Qed.

Lemma write_state_inv e i s u e' tr :
  well_formed e -> write_state i s e = Some (u, e', tr) ->
  0 <= i < numPhils_ e /\
  e' = with_states (<[Z.to_nat i := s]> (states_ e)) e /\ tr = [].
Proof.
  intros Hwf H. unfold write_state in H.
  destruct (state_at e i) as [s0 |] eqn:Hs0; [| discriminate].
  injection H as _ <- <-. split; [| auto].
  now apply (state_at_range e i s0).
Qed.

Lemma takeForks_locked_keeps e pid u e' tr :
  well_formed e -> takeForks_locked pid e = Some (u, e', tr) ->
  0 <= pid < numPhils_ e /\ same_frame e e' /\ (separated e -> separated e').
Proof.
  intros Hwf H. unfold takeForks_locked in H.
  apply bind_inv in H as (u1 & e1 & tr1 & tr2 & Hw & Ht & ->).
  apply write_state_inv in Hw as (Hpid & -> & ->); [| assumption].
  set (e1 := with_states _ e) in *.
  assert (same_frame e e1) as Hf1
    by (apply same_frame_with_states; apply length_insert).
  assert (well_formed e1) as Hwf1 by (eapply same_frame_well_formed; eauto).
  destruct (tryToEat_total e1 pid Hwf1 Hpid) as (e2 & tr & Ht' & Hf2 & Hs2).
  rewrite Ht' in Ht. injection Ht as <- <-.
  split; [assumption |]. split.
  - eapply same_frame_trans; eauto.
  - intros Hsep. apply Hs2. apply separated_write; auto; discriminate.
Qed.

Lemma putForks_locked_keeps e pid u e' tr :
  well_formed e -> putForks_locked pid e = Some (u, e', tr) ->
  0 <= pid < numPhils_ e /\ same_frame e e' /\ (separated e -> separated e').
Proof.
  intros Hwf H. unfold putForks_locked in H.
  apply bind_inv in H as (u1 & e1 & tr1 & tr2 & Hw & H & ->).
  apply write_state_inv in Hw as (Hpid & -> & ->); [| assumption].
  set (e1 := with_states _ e) in *.
  assert (same_frame e e1) as Hf1
    by (apply same_frame_with_states; apply length_insert).
  assert (well_formed e1) as Hwf1 by (eapply same_frame_well_formed; eauto).
  assert (1 <= numPhils_ e1 <= max_actors) as Hn1
    by (destruct Hwf as [? _]; simpl; lia).
  rewrite (bind_pure _ _ _ _ (right_of_run e1 pid Hn1 Hpid)) in H.
  change (numPhils_ e1) with (numPhils_ e) in H.
  destruct (tryToEat_total e1 _ Hwf1 (mod_succ_range _ _ Hpid))
    as (e2 & trr & Hr & Hf2 & Hs2).
  apply bind_inv in H as (u2 & e2' & tr2' & tr3 & Hr' & H & ->).
  rewrite Hr in Hr'. injection Hr' as <- <-.
  assert (well_formed e2) as Hwf2 by (eapply same_frame_well_formed; eauto).
  assert (numPhils_ e2 = numPhils_ e) as Hn2 by (destruct Hf2 as [-> _]; reflexivity).
  assert (0 <= pid < numPhils_ e2) as Hpid2 by lia.
  assert (1 <= numPhils_ e2 <= max_actors) as Hn2' by (simpl in Hn1; lia).
  rewrite (bind_pure _ _ _ _ (left_of_run e2 pid Hn2' Hpid2)) in H.
  rewrite Hn2 in H.
  destruct (tryToEat_total e2 _ Hwf2 (mod_pred_range _ _ Hpid2))
    as (e3 & trl & Hl & Hf3 & Hs3).
  rewrite Hn2 in Hl.
  rewrite Hl in H. injection H as <- <-.
  split; [assumption |]. split.
  - eapply same_frame_trans; [| exact Hf3].
    eapply same_frame_trans; eauto.
  - intros Hsep. apply Hs3, Hs2. apply separated_write; auto; discriminate.
Qed.

(** ** The mutex is moved by [lock] and [unlock] only *)

Lemma keeps_lock_ret {A} (a : A) : keeps_lock (ret a).
Proof. intros e a' e' tr [= _ <- _]. auto. Qed.

Lemma keeps_lock_bind {A B} (m : M A) (f : A -> M B) :
  keeps_lock m -> (forall a, keeps_lock (f a)) -> keeps_lock (bind m f).
Proof.
  intros Hm Hf e b e2 tr H.
  apply bind_inv in H as (a & e1 & tr1 & tr2 & H1 & H2 & _).
  apply Hm in H1 as [? ?]. apply Hf in H2 as [? ?]. split; congruence.
Qed.

Lemma keeps_lock_read_state i : keeps_lock (read_state i).
Proof.
  intros e a e' tr. unfold read_state.
  destruct (state_at e i); [| discriminate]. intros [= _ <- _]. auto.
Qed.

Lemma keeps_lock_write_state i s : keeps_lock (write_state i s).
Proof.
  intros e a e' tr. unfold write_state.
  destruct (state_at e i); [| discriminate]. intros [= _ <- _]. auto.
Qed.

Lemma keeps_lock_release_sem i : keeps_lock (release_sem i).
Proof.
  intros e a e' tr. unfold release_sem.
  destruct (sem_at e i); [| discriminate]. intros [= _ <- _]. auto.
Qed.

Lemma keeps_lock_left_of i : keeps_lock (left_of i).
Proof.
  intros e a e' tr. unfold left_of, bind, get_numPhils, rem.
  destruct (numPhils_ e =? 0); [discriminate |]. intros [= _ <- _]. auto.
Qed.

Lemma keeps_lock_right_of i : keeps_lock (right_of i).
Proof.
  intros e a e' tr. unfold right_of, bind, get_numPhils, rem.
  destruct (numPhils_ e =? 0); [discriminate |]. intros [= _ <- _]. auto.
Qed.

Lemma keeps_lock_if {A} (b : bool) (m1 m2 : M A) :
  keeps_lock m1 -> keeps_lock m2 -> keeps_lock (if b then m1 else m2).
Proof. now destruct b. Qed.

Create HintDb keeps_lock.
#[local] Hint Resolve keeps_lock_ret keeps_lock_read_state
  keeps_lock_write_state keeps_lock_release_sem keeps_lock_left_of
  keeps_lock_right_of : keeps_lock.

Ltac keeps_lock :=
  repeat first
    [ solve [ auto with keeps_lock ]
    | apply keeps_lock_if
    | apply keeps_lock_bind; [| intros ? ] ].

Lemma keeps_lock_tryToEat i : keeps_lock (tryToEat i).
Proof. unfold tryToEat. keeps_lock. Qed.

#[local] Hint Resolve keeps_lock_tryToEat : keeps_lock.

Lemma keeps_lock_takeForks_locked pid : keeps_lock (takeForks_locked pid).
Proof. unfold takeForks_locked. keeps_lock. Qed.

Lemma keeps_lock_putForks_locked pid : keeps_lock (putForks_locked pid).
Proof. unfold putForks_locked. keeps_lock. Qed.

Lemma next_lock_move t p o e e' p' :
  next t p o e = Some (e', p') -> lock_move t e e' p p'.
Proof.
  intros H.
  destruct p, o as [[] |]; simpl in H; try discriminate;
    try (injection H as <- <-; first [now apply lock_kept | now apply lock_dropped]);
    try (unfold lock in H; destruct (m_ e) eqn:Hm; [discriminate |];
         injection H as <- <-; now apply lock_taken).
  - destruct (takeForks_locked pid e) as [[[u e1] tr] |] eqn:Hb; [| discriminate].
    injection H as <- <-.
    apply keeps_lock_takeForks_locked in Hb as [? _]. now apply lock_kept.
  - unfold acquire_sem in H. destruct (sem_at e pid) as [g |]; [| discriminate].
    destruct (BinarySemaphore.acquire_enter g); injection H as <- <-;
      now apply lock_kept.
  - unfold wake_sem in H. destruct (sem_at e pid) as [g |]; [| discriminate].
    destruct (BinarySemaphore.acquire_wake g); [| discriminate].
    injection H as <- <-. now apply lock_kept.
  - destruct (putForks_locked pid e) as [[[u e1] tr] |] eqn:Hb; [| discriminate].
    injection H as <- <-.
    apply keeps_lock_putForks_locked in Hb as [? _]. now apply lock_kept.
Qed.

Lemma step_lock_discipline t o σ σ' :
  lock_discipline σ -> step t o σ = Some σ' -> lock_discipline σ'.
Proof.
  intros Hlock H. unfold step in H.
  destruct (threads σ !! t) as [p |] eqn:Hp; [| discriminate].
  destruct (next t p o (engine σ)) as [[e' p'] |] eqn:Hn; [| discriminate].
  injection H as <-.
  apply next_lock_move in Hn as Hmove.
  intros u q Hq. simpl in *.
  pose proof (Hlock t p Hp) as Ht.
  destruct (decide (u = t)) as [-> | Hne].
  - rewrite list_lookup_insert_eq in Hq by (eapply lookup_lt_Some; eauto).
    injection Hq as <-.
    destruct Hmove as [Hm Hh | Hm Hm' Hh Hh' | Hm' Hh Hh'].
    + rewrite Hm, Hh. exact Ht.
    + rewrite Hm', Hh'. tauto.
    + rewrite Hm', Hh'. split; discriminate.
  - rewrite list_lookup_insert_ne in Hq by congruence.
    pose proof (Hlock u q Hq) as Hu.
    destruct Hmove as [Hm Hh | Hm Hm' Hh Hh' | Hm' Hh Hh'].
    + rewrite Hm. exact Hu.
    + rewrite Hm'. rewrite Hm in Hu. split.
      * intros [= ->]. congruence.
      * intros Hq'. apply Hu in Hq'. discriminate.
    + rewrite Hm'. split; [discriminate |].
      intros Hq'. apply Hu in Hq'. apply Ht in Hh. congruence.
Qed.

Lemma run_lock_discipline sched : forall σ σ',
  lock_discipline σ -> run sched σ = Some σ' -> lock_discipline σ'.
Proof.
  induction sched as [| [t o] rest IH]; intros σ σ' Hinv H; simpl in H.
  - now injection H as <-.
  - destruct (step t o σ) as [σ1 |] eqn:Hs; [| discriminate].
    eapply IH; [| exact H]. eapply step_lock_discipline; eauto.
Qed.

(** ** The engine keeps its shape and the separation of eaters *)

Lemma separated_same_states e e' :
  numPhils_ e' = numPhils_ e -> states_ e' = states_ e ->
  separated e -> separated e'.
Proof.
  intros Hn Hs Hsep i. unfold state_at. rewrite Hn, Hs. apply Hsep.
Qed.

Lemma well_formed_same_shape e e' :
  numPhils_ e' = numPhils_ e ->
  length (states_ e') = length (states_ e) ->
  length (sems_ e') = length (sems_ e) ->
  well_formed e -> well_formed e'.
Proof. unfold well_formed. intros -> -> ->. auto. Qed.

Lemma engine_invariant_same_states n e e' :
  numPhils_ e' = numPhils_ e -> states_ e' = states_ e ->
  length (sems_ e') = length (sems_ e) ->
  engine_invariant n e -> engine_invariant n e'.
Proof.
  intros Hn Hs Hl (Hn0 & Hwf & Hsep). split; [congruence |]. split.
  - eapply well_formed_same_shape; eauto. now rewrite Hs.
  - eapply separated_same_states; eauto.
Qed.

Lemma engine_invariant_same_frame n e e' :
  same_frame e e' -> (separated e -> separated e') ->
  engine_invariant n e -> engine_invariant n e'.
Proof.
  intros Hf Hs (Hn0 & Hwf & Hsep). split; [| split].
  - destruct Hf as [-> _]. exact Hn0.
  - eapply same_frame_well_formed; eauto.
  - auto.
Qed.

Ltac same_states :=
  eapply engine_invariant_same_states; [ | | | eassumption ];
  simpl; rewrite ?length_insert; reflexivity.

Lemma next_engine_invariant n t p o e e' p' :
  engine_invariant n e -> next t p o e = Some (e', p') ->
  engine_invariant n e'.
Proof.
  intros Hinv H.
  destruct p, o as [[] |]; simpl in H; try discriminate;
    try (injection H as <- <-; same_states);
    try (unfold lock in H; destruct (m_ e) eqn:Hm; [discriminate |];
         injection H as <- <-; same_states).
  - destruct (takeForks_locked pid e) as [[[u e1] tr] |] eqn:Hb; [| discriminate].
    injection H as <- <-.
    apply takeForks_locked_keeps in Hb as (_ & Hf & Hsep); [| apply Hinv].
    eapply engine_invariant_same_frame; eauto.
  - unfold acquire_sem in H. destruct (sem_at e pid) as [g |]; [| discriminate].
    destruct (BinarySemaphore.acquire_enter g); injection H as <- <-;
      same_states.
  - unfold wake_sem in H. destruct (sem_at e pid) as [g |]; [| discriminate].
    destruct (BinarySemaphore.acquire_wake g); [| discriminate].
    injection H as <- <-. same_states.
  - destruct (putForks_locked pid e) as [[[u e1] tr] |] eqn:Hb; [| discriminate].
    injection H as <- <-.
    apply putForks_locked_keeps in Hb as (_ & Hf & Hsep); [| apply Hinv].
    eapply engine_invariant_same_frame; eauto.
Qed.

Lemma step_engine_invariant n t o σ σ' :
  engine_invariant n (engine σ) -> step t o σ = Some σ' ->
  engine_invariant n (engine σ').
Proof.
  intros Hinv H. unfold step in H.
  destruct (threads σ !! t) as [p |]; [| discriminate].
  destruct (next t p o (engine σ)) as [[e' p'] |] eqn:Hn; [| discriminate].
  injection H as <-. simpl. eapply next_engine_invariant; eauto.
Qed.

Lemma run_engine_invariant n sched : forall σ σ',
  engine_invariant n (engine σ) -> run sched σ = Some σ' ->
  engine_invariant n (engine σ').
Proof.
  induction sched as [| [t o] rest IH]; intros σ σ' Hinv H; simpl in H.
  - now injection H as <-.
  - destruct (step t o σ) as [σ1 |] eqn:Hs; [| discriminate].
    eapply IH; [| exact H]. eapply step_engine_invariant; eauto.
Qed.

(** ** The engine as constructed *)

Lemma push_sems_app rounds : forall sems,
  push_sems rounds sems = sems ++ repeat (BinarySemaphore.new 0) rounds.
Proof.
  induction rounds as [| k IH]; intros sems; simpl.
  - now rewrite app_nil_r.
  - rewrite IH, <- app_assoc. reflexivity.
Qed.

Lemma lookup_repeat {A} (x y : A) k : forall j : nat,
  repeat x k !! j = Some y <-> y = x /\ (j < k)%nat.
Proof.
  induction k as [| k IH]; intros j; simpl.
  - split; [discriminate | lia].
  - destruct j as [| j]; simpl.
    + split; [intros [= ->]; split; [reflexivity | lia] | now intros [-> _]].
    + rewrite IH. split; intros [? ?]; split; auto; lia.
Qed.


Lemma vec_get_repeat_inv {A} (x y : A) k i :
  vec_get (repeat x k) i = Some y -> y = x.
Proof.
  unfold vec_get. destruct (i <? 0); [discriminate |].
  intros H. now apply lookup_repeat in H.
Qed.

Section Construction.
Variable n : Z.
Variable e : PhilosophersSync.
Hypothesis Hnew : PhilosophersSync_new n = Some e.

Lemma new_fields :
  numPhils_ e = n /\ m_ e = None /\
  states_ e = repeat THINKING (Z.to_nat n) /\
  sems_ e = repeat (BinarySemaphore.new 0) (Z.to_nat n).
Proof using Hnew.
  unfold PhilosophersSync_new in Hnew. injection Hnew as <-. simpl.
  now rewrite push_sems_app.
Qed.

Lemma new_well_formed : 0 <= n <= max_actors -> well_formed e.
Proof using Hnew.
  destruct new_fields as (Hn & _ & Hs & Hg). intros H.
  unfold well_formed. rewrite Hn, Hs, Hg, !repeat_length. auto.
Qed.

Lemma new_separated : separated e.
Proof using Hnew.
  destruct new_fields as (_ & _ & Hs & _).
  intros i _ Hi. unfold state_at in Hi. rewrite Hs in Hi.
  apply vec_get_repeat_inv in Hi. discriminate.
Qed.

Lemma new_engine_invariant : 0 <= n <= max_actors -> engine_invariant n e.
Proof using Hnew.
  intros H. split; [apply new_fields |].
  split; [now apply new_well_formed | apply new_separated].
Qed.
End Construction.

Lemma boot_inv n k σ0 :
  boot n k = Some σ0 ->
  PhilosophersSync_new n = Some (engine σ0) /\ threads σ0 = repeat Idle k.
Proof.
  unfold boot. destruct (PhilosophersSync_new n) as [e |]; [| discriminate].
  now intros [= <-].
Qed.

Lemma boot_lock_discipline n k σ0 : boot n k = Some σ0 -> lock_discipline σ0.
Proof.
  intros H. apply boot_inv in H as [He Ht].
  destruct (new_fields _ _ He) as (_ & Hm & _).
  intros t p Hp. rewrite Ht in Hp. rewrite Hm.
  apply lookup_repeat in Hp as [-> _]. simpl. split; discriminate.
Qed.

Lemma reachable_engine_invariant n k σ :
  0 <= n <= max_actors -> reachable n k σ -> engine_invariant n (engine σ).
Proof.
  intros Hn (σ0 & sched & Hb & Hr).
  eapply run_engine_invariant; [| exact Hr].
  apply boot_inv in Hb as [He _]. now apply new_engine_invariant.
Qed.

Lemma reachable_lock_discipline n k σ :
  reachable n k σ -> lock_discipline σ.
Proof.
  intros (σ0 & sched & Hb & Hr).
  eapply run_lock_discipline; [| exact Hr].
  eapply boot_lock_discipline; eauto.
Qed.

(** ** Separation and the two forms of the safety property *)

Lemma separated_no_two_in_a_row e :
  2 <= numPhils_ e -> separated e -> no_two_in_a_row e.
Proof.
  intros Hn Hsep i Hi [He He']. revert He'.
  apply Hsep; auto. now apply mod_succ_other.
Qed.

Lemma no_two_in_a_row_adjacency_exclusion e :
  no_two_in_a_row e <-> adjacency_exclusion e.
Proof.
  split.
  - intros H i Hi He. split.
    + intros Hl.
      apply (H ((i - 1) mod numPhils_ e) (mod_pred_range _ _ Hi)).
      rewrite mod_succ_pred by assumption. auto.
    + intros Hr. apply (H i Hi). auto.
  - intros H i Hi [He Hr]. now apply (H i Hi He).
Qed.

(** ** A thread that runs alone *)

Lemma step_at t o σ p e' p' :
  threads σ !! t = Some p -> next t p o (engine σ) = Some (e', p') ->
  step t o σ = Some {| engine := e'; threads := <[t := p']> (threads σ) |}.
Proof. intros Hp Hn. unfold step. now rewrite Hp, Hn. Qed.

Lemma run_solo t os : forall σ p e' p',
  threads σ !! t = Some p ->
  solo t os p (engine σ) = Some (e', p') ->
  run (map (pair t) os) σ
  = Some {| engine := e'; threads := <[t := p']> (threads σ) |}.
Proof.
  induction os as [| o rest IH]; intros σ p e' p' Hp H; simpl in *.
  - injection H as <- <-. rewrite list_insert_id by assumption.
    now destruct σ.
  - destruct (next t p o (engine σ)) as [[e1 p1] |] eqn:Hn; [| discriminate].
    rewrite (step_at _ _ _ _ _ _ Hp Hn).
    erewrite IH; [| | exact H]; simpl.
    + now rewrite list_insert_insert_eq.
    + apply list_lookup_insert_eq. eapply lookup_lt_Some; eauto.
Qed.

(** * The gate *)

(** C4. Two calls of [release()] in a row leave the gate as one call
    does, available; the [acquire()] that follows returns at once and
    leaves the value at 0; the [acquire()] after that parks its caller,
    and the caller cannot leave the wait while the gate stays as it is. *)
Theorem release_idempotent_single_permit (g : BinarySemaphore.t) :
  let g2 := BinarySemaphore.release (BinarySemaphore.release g) in
  g2 = BinarySemaphore.release g /\
  BinarySemaphore.available g2 /\
  exists g3,
    BinarySemaphore.acquire_enter g2 = BinarySemaphore.Returned g3 /\
    BinarySemaphore.unavailable g3 /\
    BinarySemaphore.acquire_enter g3 = BinarySemaphore.Parked g3 /\
    BinarySemaphore.acquire_wake g3 = None.
Proof.
  simpl. split; [reflexivity |]. split; [reflexivity |].
  exists {| BinarySemaphore.v_ := 0 |}. repeat split.
Qed.

(** C3, at the input on which [acquire()] does not do what the claim says:
    a gate built with 0, a caller that parks in [acquire()], a
    [release()] by another thread. The caller leaves the wait and
    [acquire()] returns with the value still 1: the gate is available, not
    unavailable, and one more [acquire()] returns at once instead of
    parking. *)
Theorem acquire_after_wait_keeps_permit :
  let g0 := BinarySemaphore.new 0 in
  let g1 := BinarySemaphore.release g0 in
  BinarySemaphore.acquire_enter g0 = BinarySemaphore.Parked g0 /\
  BinarySemaphore.acquire_wake g0 = None /\
  BinarySemaphore.acquire_wake g1 = Some g1 /\
  BinarySemaphore.available g1 /\
  ~ BinarySemaphore.unavailable g1 /\
  BinarySemaphore.acquire_enter g1
  = BinarySemaphore.Returned {| BinarySemaphore.v_ := 0 |}.
Proof.
  simpl. repeat split. unfold BinarySemaphore.unavailable. simpl. discriminate.
Qed.

(** Whenever [acquire()] returns out of the wait, it is with the gate
    available. *)
Lemma acquire_wake_available (g g' : BinarySemaphore.t) :
  BinarySemaphore.acquire_wake g = Some g' ->
  g' = g /\ BinarySemaphore.available g'.
Proof.
  unfold BinarySemaphore.acquire_wake, BinarySemaphore.available.
  destruct (Z.eqb_spec (BinarySemaphore.v_ g) 1) as [H1 | _]; [| discriminate].
  now intros [= <-].
Qed.

(** Whenever [acquire()] returns without a wait, it is with the gate
    unavailable. *)
Lemma acquire_enter_unavailable (g g' : BinarySemaphore.t) :
  BinarySemaphore.acquire_enter g = BinarySemaphore.Returned g' ->
  BinarySemaphore.unavailable g'.
Proof.
  unfold BinarySemaphore.acquire_enter.
  destruct (BinarySemaphore.v_ g =? 1); [| discriminate].
  now intros [= <-].
Qed.

Example takeForks_returns_while_hungry :
  exists σ0,
    boot 3 2 = Some σ0 /\
    run woken_then_unblocked σ0
    = Some {| engine := {| numPhils_ := 3;
                           m_ := None;
                           states_ := [EATING; HUNGRY; THINKING];
                           sems_ := [BinarySemaphore.Make 0;
                                     BinarySemaphore.Make 0;
                                     BinarySemaphore.Make 0] |};
              threads := [Idle; Idle] |}.
Proof. eexists. split; reflexivity. Qed.

(** * The engine *)




Lemma single_actor_eating_reachable : reachable 1 1 single_actor_eating.
Proof. eexists. exists (takeForks_alone 0 0). split; reflexivity. Qed.

Lemma one_eating_one_parked_reachable : reachable 3 2 one_eating_one_parked.
Proof. eexists. exists to_one_eating_one_parked. split; reflexivity. Qed.

Lemma one_eating_one_reading_reachable : reachable 3 2 one_eating_one_reading.
Proof. eexists. exists to_one_eating_one_reading. split; reflexivity. Qed.

(** C1, with a single actor: after [takeForks(0)] on a new engine of one
    actor, actor 0 is EATING and so is [state[(0+1) mod 1]], which is the
    same entry; both forms of the property fail in this reachable state. *)
Lemma adjacency_exclusion_fails_single_actor :
  reachable 1 1 single_actor_eating /\
  state_at (engine single_actor_eating) 0 = Some EATING /\
  state_at (engine single_actor_eating) ((0 + 1) mod 1) = Some EATING /\
  ~ adjacency_exclusion (engine single_actor_eating) /\
  ~ no_two_in_a_row (engine single_actor_eating).
Proof.
  split; [apply single_actor_eating_reachable |].
  split; [reflexivity |]. split; [reflexivity |].
  assert (~ no_two_in_a_row (engine single_actor_eating)) as Hno.
  { intros H. apply (H 0); simpl; [lia |]. split; reflexivity. }
  split; [| exact Hno].
  intros H. apply Hno. now apply no_two_in_a_row_adjacency_exclusion.
Qed.

(** C1, as the code has it. With two actors or more, in every state that
    the threads can reach from the new engine, by whatever calls of
    [takeForks], [putForks] and [getStates] with defined behaviour and in
    whatever interleaving, an EATING actor has no EATING neighbour on
    either side; equivalently no actor and its right neighbour are both
    EATING. *)
Theorem adjacency_exclusion_reachable (n : Z) (k : nat) (σ : System) :
  2 <= n <= max_actors ->
  reachable n k σ ->
  numPhils_ (engine σ) = n /\
  adjacency_exclusion (engine σ) /\
  no_two_in_a_row (engine σ).
Proof.
  intros Hn Hreach.
  destruct (reachable_engine_invariant n k σ) as (Hnum & Hwf & Hsep);
    [lia | assumption |].
  assert (no_two_in_a_row (engine σ)) as Hno
    by (apply separated_no_two_in_a_row; [lia | assumption]).
  split; [exact Hnum |]. split; [| exact Hno].
  now apply no_two_in_a_row_adjacency_exclusion.
Qed.

Lemma adjacency_exclusion_reachable_witness :
  numPhils_ (engine one_eating_one_parked) = 3 /\
  adjacency_exclusion (engine one_eating_one_parked) /\
  no_two_in_a_row (engine one_eating_one_parked).
Proof.
  apply (adjacency_exclusion_reachable 3 2 one_eating_one_parked).
  - rewrite max_actors_value. lia.
  - exists {| engine := {| numPhils_ := 3;
                           m_ := None;
                           states_ := [THINKING; THINKING; THINKING];
                           sems_ := [BinarySemaphore.new 0;
                                     BinarySemaphore.new 0;
                                     BinarySemaphore.new 0] |};
              threads := [Idle; Idle] |}, to_one_eating_one_parked.
    split; reflexivity.
Defined.

(** C9. In every state the threads can reach, a thread that stands before
    the call of [acquire()] in [takeForks], or is parked in the wait of
    that call, does not hold the engine's mutex: the mutex was dropped at
    the end of the block, before the gate is touched. *)
Theorem no_lock_held_while_blocked
  (n : Z) (k : nat) (σ : System) (t : nat) (pid : Z) :
  reachable n k σ ->
  threads σ !! t = Some (TakeForks_acquire pid) \/
  threads σ !! t = Some (TakeForks_wait pid) ->
  m_ (engine σ) <> Some t.
Proof.
  intros Hreach Hp Hm.
  apply reachable_lock_discipline in Hreach.
  destruct Hp as [Hp | Hp]; apply (Hreach t _ Hp) in Hm; discriminate.
Qed.

Lemma no_lock_held_while_blocked_witness :
  m_ (engine one_eating_one_parked) <> Some 1%nat.
Proof.
  apply (no_lock_held_while_blocked 3 2 one_eating_one_parked 1%nat 1).
  - exists {| engine := {| numPhils_ := 3;
                           m_ := None;
                           states_ := [THINKING; THINKING; THINKING];
                           sems_ := [BinarySemaphore.new 0;
                                     BinarySemaphore.new 0;
                                     BinarySemaphore.new 0] |};
              threads := [Idle; Idle] |}, to_one_eating_one_parked.
    split; reflexivity.
  - right. reflexivity.
Defined.

(** Every value of [State] is one of the three. *)
Lemma State_valid (s : State) : s = THINKING \/ s = HUNGRY \/ s = EATING.
Proof. destruct s; auto. Qed.

Lemma next_in_getStates t p e e' p' :
  in_getStates p = true -> next t p None e = Some (e', p') ->
  numPhils_ e' = numPhils_ e /\ states_ e' = states_ e /\ sems_ e' = sems_ e.
Proof.
  intros Hp H. destruct p; try discriminate; simpl in H.
  - unfold lock in H. destruct (m_ e); [discriminate |].
    now injection H as <- <-.
  - now injection H as <- <-.
  - now injection H as <- <-.
Qed.

(** C8. In a state the threads can reach from the new engine of [n]
    actors, let thread [t] stand inside [getStates()] at the copy. Then [t]
    holds the mutex and no other thread is inside a locked block; the copy
    [res] is the state vector of that moment, has [n] entries, each
    THINKING, HUNGRY or EATING; the engine after the copy is the engine
    before it, and no gate is released. Moreover no action of a thread
    inside [getStates()] (taking the mutex, copying, dropping the mutex)
    changes the state vector or a gate. *)
Theorem getStates_snapshot (n : Z) (k : nat) (σ : System) (t : nat) :
  0 <= n <= max_actors ->
  reachable n k σ ->
  threads σ !! t = Some GetStates_body ->
  m_ (engine σ) = Some t /\
  (forall u q, threads σ !! u = Some q -> holds_lock q = true -> u = t) /\
  (exists res,
     getStates_locked (engine σ) = Some (res, engine σ, []) /\
     res = states_ (engine σ) /\
     Z.of_nat (length res) = n /\
     Forall (fun s => s = THINKING \/ s = HUNGRY \/ s = EATING) res /\
     step t None σ
     = Some {| engine := engine σ;
               threads := <[t := GetStates_unlock res]> (threads σ) |}) /\
  (forall u p σ',
     threads σ !! u = Some p -> in_getStates p = true ->
     step u None σ = Some σ' ->
     states_ (engine σ') = states_ (engine σ) /\
     sems_ (engine σ') = sems_ (engine σ)).
Proof.
  intros Hn Hreach Hp.
  destruct (reachable_engine_invariant n k σ Hn Hreach)
    as (Hnum & (_ & Hlen & _) & _).
  apply reachable_lock_discipline in Hreach.
  assert (m_ (engine σ) = Some t) as Hm by now apply (Hreach t _ Hp).
  split; [exact Hm |]. split; [| split].
  - intros u q Hu Hq. apply (Hreach u q Hu) in Hq. congruence.
  - exists (states_ (engine σ)).
    split; [reflexivity |]. split; [reflexivity |].
    split; [rewrite Hlen; lia |].
    split; [apply Forall_forall; intros s _; apply State_valid |].
    now apply (step_at t None σ GetStates_body).
  - intros u p σ' Hu Hin Hstep. unfold step in Hstep. rewrite Hu in Hstep.
    destruct (next u p None (engine σ)) as [[e' p'] |] eqn:Hnext;
      [| discriminate].
    injection Hstep as <-. simpl.
    now apply next_in_getStates in Hnext as (_ & ? & ?).
Qed.

Lemma getStates_snapshot_witness :
  m_ (engine one_eating_one_reading) = Some 1%nat /\
  (forall u q,
     threads one_eating_one_reading !! u = Some q ->
     holds_lock q = true -> u = 1%nat) /\
  (exists res,
     getStates_locked (engine one_eating_one_reading)
     = Some (res, engine one_eating_one_reading, []) /\
     res = states_ (engine one_eating_one_reading) /\
     Z.of_nat (length res) = 3 /\
     Forall (fun s => s = THINKING \/ s = HUNGRY \/ s = EATING) res /\
     step 1%nat None one_eating_one_reading
     = Some {| engine := engine one_eating_one_reading;
               threads := <[1%nat := GetStates_unlock res]>
                            (threads one_eating_one_reading) |}) /\
  (forall u p σ',
     threads one_eating_one_reading !! u = Some p ->
     in_getStates p = true ->
     step u None one_eating_one_reading = Some σ' ->
     states_ (engine σ') = states_ (engine one_eating_one_reading) /\
     sems_ (engine σ') = sems_ (engine one_eating_one_reading)).
Proof.
  apply (getStates_snapshot 3 2 one_eating_one_reading 1%nat).
  - rewrite max_actors_value. lia.
  - exists {| engine := {| numPhils_ := 3;
                           m_ := None;
                           states_ := [THINKING; THINKING; THINKING];
                           sems_ := [BinarySemaphore.new 0;
                                     BinarySemaphore.new 0;
                                     BinarySemaphore.new 0] |};
              threads := [Idle; Idle] |}, to_one_eating_one_reading.
    split; reflexivity.
  - reflexivity.
Defined.

(** C7. Three actors, all THINKING, the mutex free, the gates in any
    state, and a thread [t] outside the engine. The five actions of
    [takeForks(0)] by [t] alone (the call, the lock, the block, the unlock
    and the first stretch of [acquire()]) are all enabled and end with [t]
    outside the engine again: the promotion was made inside the call and
    [acquire()] returned without a wait. The state vector is then
    [EATING, THINKING, THINKING]. *)
Theorem takeForks_immediate_promotion
  (g0 g1 g2 : BinarySemaphore.t) (ths : list Pc) (t : nat) :
  ths !! t = Some Idle ->
  run (takeForks_alone t 0)
      {| engine := {| numPhils_ := 3;
                      m_ := None;
                      states_ := [THINKING; THINKING; THINKING];
                      sems_ := [g0; g1; g2] |};
         threads := ths |}
  = Some {| engine := {| numPhils_ := 3;
                         m_ := None;
                         states_ := [EATING; THINKING; THINKING];
                         sems_ := [BinarySemaphore.Make 0; g1; g2] |};
            threads := ths |}.
Proof.
  intros Ht.
  change (takeForks_alone t 0)
    with (map (pair t) [Some (CallTakeForks 0); None; None; None; None]).
  erewrite run_solo; [| exact Ht | reflexivity].
  simpl. now rewrite list_insert_id.
Qed.

Lemma takeForks_immediate_promotion_witness :
  run (takeForks_alone 1 0)
      {| engine := {| numPhils_ := 3;
                      m_ := None;
                      states_ := [THINKING; THINKING; THINKING];
                      sems_ := [BinarySemaphore.new 0;
                                BinarySemaphore.new 0;
                                BinarySemaphore.new 0] |};
         threads := [Idle; Idle] |}
  = Some {| engine := {| numPhils_ := 3;
                         m_ := None;
                         states_ := [EATING; THINKING; THINKING];
                         sems_ := [BinarySemaphore.Make 0;
                                   BinarySemaphore.new 0;
                                   BinarySemaphore.new 0] |};
            threads := [Idle; Idle] |}.
Proof.
  apply (takeForks_immediate_promotion _ _ _ [Idle; Idle] 1%nat).
  reflexivity.
Defined.

(** C10. One actor, THINKING, the mutex free, the gate in any state.
    Both neighbour expressions of actor 0 give 0; with actor 0 HUNGRY the
    promotion rule fires; and [takeForks(0)] by a thread alone ends outside
    the engine after its five actions, actor 0 EATING, without a wait. *)
Theorem single_actor_promotes
  (g : BinarySemaphore.t) (ths : list Pc) (t : nat) :
  ths !! t = Some Idle ->
  let e0 := {| numPhils_ := 1; m_ := None;
               states_ := [THINKING]; sems_ := [g] |} in
  let eh := {| numPhils_ := 1; m_ := None;
               states_ := [HUNGRY]; sems_ := [g] |} in
  left_of 0 e0 = Some (0, e0, []) /\
  right_of 0 e0 = Some (0, e0, []) /\
  eligible eh 0 /\
  tryToEat 0 eh
  = Some (tt, {| numPhils_ := 1; m_ := None; states_ := [EATING];
                 sems_ := [BinarySemaphore.Make 1] |}, [Release 0]) /\
  run (takeForks_alone t 0) {| engine := e0; threads := ths |}
  = Some {| engine := {| numPhils_ := 1;
                         m_ := None;
                         states_ := [EATING];
                         sems_ := [BinarySemaphore.Make 0] |};
            threads := ths |}.
Proof.
  intros Ht e0 eh.
  split; [reflexivity |]. split; [reflexivity |].
  split; [repeat split; discriminate |]. split; [reflexivity |].
  change (takeForks_alone t 0)
    with (map (pair t) [Some (CallTakeForks 0); None; None; None; None]).
  erewrite run_solo; [| exact Ht | reflexivity].
  simpl. now rewrite list_insert_id.
Qed.

Lemma single_actor_promotes_witness :
  let e0 := {| numPhils_ := 1; m_ := None;
               states_ := [THINKING]; sems_ := [BinarySemaphore.new 0] |} in
  let eh := {| numPhils_ := 1; m_ := None;
               states_ := [HUNGRY]; sems_ := [BinarySemaphore.new 0] |} in
  left_of 0 e0 = Some (0, e0, []) /\
  right_of 0 e0 = Some (0, e0, []) /\
  eligible eh 0 /\
  tryToEat 0 eh
  = Some (tt, {| numPhils_ := 1; m_ := None; states_ := [EATING];
                 sems_ := [BinarySemaphore.Make 1] |}, [Release 0]) /\
  run (takeForks_alone 0 0) {| engine := e0; threads := [Idle] |}
  = Some {| engine := {| numPhils_ := 1;
                         m_ := None;
                         states_ := [EATING];
                         sems_ := [BinarySemaphore.Make 0] |};
            threads := [Idle] |}.
Proof.
  apply (single_actor_promotes (BinarySemaphore.new 0) [Idle] 0%nat).
  reflexivity.
Defined.

Lemma tryToEat_promotion_rule_witness :
  let e := {| numPhils_ := 3; m_ := Some 0%nat;
              states_ := [HUNGRY; THINKING; THINKING];
              sems_ := [BinarySemaphore.new 0; BinarySemaphore.new 0;
                        BinarySemaphore.new 0] |} in
  tryToEat 0 e
  = Some (tt,
          {| numPhils_ := 3; m_ := Some 0%nat;
             states_ := [EATING; THINKING; THINKING];
             sems_ := [BinarySemaphore.Make 1; BinarySemaphore.new 0;
                       BinarySemaphore.new 0] |},
          [Release 0]) /\
  (~ (state_at e 1 = Some HUNGRY /\
      state_at e ((1 - 1) mod 3) <> Some EATING /\
      state_at e ((1 + 1) mod 3) <> Some EATING) ->
   tryToEat 1 e = Some (tt, e, [])).
Proof.
  intros e.
  assert (well_formed e) as Hwf.
  { split; [rewrite max_actors_value; simpl; lia | split; reflexivity]. }
  split.
  - apply (proj1 (tryToEat_promotion_rule e 0 (BinarySemaphore.new 0) Hwf
                    ltac:(simpl; lia) eq_refl)).
    repeat split; discriminate.
  - apply (proj2 (tryToEat_promotion_rule e 1 (BinarySemaphore.new 0) Hwf
                    ltac:(simpl; lia) eq_refl)).
Defined.

(** ** [putForks]: the order of the two evaluations *)

Lemma tryToEat_cases e i :
  well_formed e -> 0 <= i < numPhils_ e ->
  (eligible e i /\ tryToEat i e = Some (tt, promoted i e, [Release i])) \/
  (~ eligible e i /\ tryToEat i e = Some (tt, e, [])).
Proof.
  intros Hwf Hi. destruct (eligible_dec e i) as [H | H].
  - left. split; [assumption | now apply tryToEat_promotes].
  - right. split; [assumption | now apply tryToEat_skips].
Qed.

(** [tryToEat] changes the state of HUNGRY actors only. *)
Lemma tryToEat_keeps_state e i e' tr k :
  well_formed e -> 0 <= i < numPhils_ e ->
  tryToEat i e = Some (tt, e', tr) ->
  0 <= k -> state_at e k <> Some HUNGRY ->
  state_at e' k = state_at e k.
Proof.
  intros Hwf Hi H Hk Hs.
  destruct (tryToEat_cases e i Hwf Hi) as [[Hel Hrun] | [_ Hrun]];
    rewrite Hrun in H; injection H as <- <-; [| reflexivity].
  rewrite state_at_promoted by assumption.
  destruct (Z.eqb_spec k i) as [-> | _]; [| reflexivity].
  destruct Hel as [Hh _]. congruence.
Qed.

Lemma mod_pred_shift n i :
  0 < n -> (i + n - 1) mod n = (i - 1) mod n.
Proof.
  intros Hn. replace (i + n - 1) with (i - 1 + 1 * n) by lia.
  apply Z_mod_plus_full.
Qed.

(** In a ring of three the two neighbours of an actor are neighbours of
    each other. *)
Lemma ring_of_three i :
  0 <= i < 3 ->
  ((i - 1) mod 3 - 1) mod 3 = (i + 1) mod 3 /\
  (i - 1) mod 3 <> (i + 1) mod 3.
Proof.
  intros H.
  assert (i = 0 \/ i = 1 \/ i = 2) as [-> | [-> | ->]] by lia;
    split; (reflexivity || discriminate).
Qed.

(** In a ring of four or more they are not, and they differ. *)
Lemma ring_of_more n i :
  4 <= n -> 0 <= i < n ->
  ((i - 1) mod n - 1) mod n <> (i + 1) mod n /\
  (i - 1) mod n <> (i + 1) mod n.
Proof.
  intros Hn Hi.
  pose proof (mod_pred_range n i Hi) as Hx.
  pose proof (mod_pred n ((i - 1) mod n) Hx) as Hy.
  pose proof (mod_pred n i Hi) as Hx'.
  pose proof (mod_succ n i Hi) as Hz.
  destruct (Z.eqb_spec ((i - 1) mod n) 0), (Z.eqb_spec i 0),
    (Z.ltb_spec (i + 1) n); lia.
Qed.

(** C6. Let actor [pid] of a well-formed engine be EATING. Then
    [putForks(pid)], under the mutex, writes THINKING into [state[pid]],
    runs [tryToEat] on [(pid+1) mod n] and then, on the engine that call
    left, on [(pid+n-1) mod n]; their released gates are recorded in that
    order, and [state[pid]] is THINKING at the end. If both neighbours pass
    the test of the promotion rule once [pid] is THINKING, then
    [(pid+1) mod n] is EATING at the end and its gate is the first one
    released; in the ring of three, where the two neighbours exclude each
    other, [(pid+n-1) mod n] stays HUNGRY and no other gate is released; in
    a ring of four or more it is promoted second. *)
Theorem putForks_order_and_tie_break (e : PhilosophersSync) (pid : Z) :
  well_formed e ->
  0 <= pid < numPhils_ e ->
  state_at e pid = Some EATING ->
  let n := numPhils_ e in
  let r := (pid + 1) mod n in
  let l := (pid + n - 1) mod n in
  let e0 := with_states (<[Z.to_nat pid := THINKING]> (states_ e)) e in
  exists e1 tr1 e2 tr2,
    tryToEat r e0 = Some (tt, e1, tr1) /\
    tryToEat l e1 = Some (tt, e2, tr2) /\
    putForks_locked pid e = Some (tt, e2, tr1 ++ tr2) /\
    state_at e2 pid = Some THINKING /\
    (eligible e0 r -> eligible e0 l ->
     state_at e2 r = Some EATING /\
     (exists rest, tr1 ++ tr2 = Release r :: rest) /\
     (n = 3 -> state_at e2 l = Some HUNGRY /\ tr1 ++ tr2 = [Release r]) /\
     (4 <= n ->
      state_at e2 l = Some EATING /\ tr1 ++ tr2 = [Release r; Release l])).
Proof.
  intros Hwf Hpid Heat n r l e0.
  assert (numPhils_ e = n) as Hne by reflexivity.
  assert (numPhils_ e0 = n) as Hn0 by reflexivity.
  clearbody n. rewrite Hne in Hpid.
  assert (1 <= n <= max_actors) as Hn by (destruct Hwf as [? _]; lia).
  assert (l = (pid - 1) mod n) as Hl by (apply mod_pred_shift; lia).
  assert (0 <= r < n) as Hr_range by (apply mod_succ_range; assumption).
  assert (0 <= l < n) as Hl_range
    by (rewrite Hl; apply mod_pred_range; assumption).
  assert (same_frame e e0) as Hf0
    by (apply same_frame_with_states; apply length_insert).
  assert (well_formed e0) as Hwf0 by (eapply same_frame_well_formed; eauto).
  assert (0 <= r < numPhils_ e0) as Hr_range0 by lia.
  destruct (tryToEat_total e0 r Hwf0 Hr_range0) as (e1 & tr1 & H1 & Hf1 & _).
  assert (well_formed e1) as Hwf1 by (eapply same_frame_well_formed; eauto).
  assert (numPhils_ e1 = n) as Hn1 by (destruct Hf1 as [-> _]; exact Hn0).
  assert (0 <= l < numPhils_ e1) as Hl_range1 by lia.
  destruct (tryToEat_total e1 l Hwf1 Hl_range1) as (e2 & tr2 & H2 & Hf2 & _).
  assert (state_at e0 pid = Some THINKING) as Hpid0.
  { unfold e0. rewrite state_at_with_states by (assumption || lia).
    now rewrite Z.eqb_refl. }
  assert (state_at e1 pid = Some THINKING) as Hpid1.
  { rewrite <- Hpid0.
    apply (tryToEat_keeps_state e0 r e1 tr1); auto; [lia | congruence]. }
  assert (state_at e2 pid = Some THINKING) as Hpid2.
  { rewrite <- Hpid1.
    apply (tryToEat_keeps_state e1 l e2 tr2); auto; [lia | congruence]. }
  exists e1, tr1, e2, tr2.
  split; [exact H1 |]. split; [exact H2 |]. split; [| split; [exact Hpid2 |]].
  { (* the body of [putForks] is these steps, in this order *)
    unfold putForks_locked.
    change (Some (tt, e2, tr1 ++ tr2)) with (Some (tt, e2, [] ++ (tr1 ++ tr2))).
    apply (bind_run _ _ e tt e0); [apply write_state_total; [assumption | lia] |].
    assert (1 <= numPhils_ e0 <= max_actors) as Hn0' by lia.
    assert (0 <= pid < numPhils_ e0) as Hpid0' by lia.
    rewrite (bind_pure _ _ _ _ (right_of_run e0 pid Hn0' Hpid0')).
    rewrite Hn0.
    apply (bind_run _ _ e0 tt e1); [exact H1 |].
    assert (1 <= numPhils_ e1 <= max_actors) as Hn1' by lia.
    assert (0 <= pid < numPhils_ e1) as Hpid1' by lia.
    rewrite (bind_pure _ _ _ _ (left_of_run e1 pid Hn1' Hpid1')).
    rewrite Hn1, <- Hl. exact H2. }
  intros Her Hel.
  (* the right neighbour is promoted by the first evaluation *)
  rewrite (tryToEat_promotes e0 r Hwf0 Hr_range0 Her) in H1.
  injection H1 as <- <-.
  assert (state_at (promoted r e0) r = Some EATING) as Hr1.
  { rewrite state_at_promoted by (assumption || lia). now rewrite Z.eqb_refl. }
  assert (state_at e2 r = Some EATING) as Hr2.
  { rewrite <- Hr1.
    apply (tryToEat_keeps_state (promoted r e0) l e2 tr2); auto;
      [lia | congruence]. }
  split; [exact Hr2 |]. split; [now exists tr2 |].
  assert (state_at e0 l = Some HUNGRY) as Hl0 by apply Hel.
  split.
  - (* ring of three: the left neighbour now has an EATING neighbour *)
    intros Hn3.
    assert (((pid - 1) mod n - 1) mod n = (pid + 1) mod n /\
            (pid - 1) mod n <> (pid + 1) mod n) as [Hadj Hdiff]
      by (rewrite Hn3; apply ring_of_three; lia).
    assert (~ eligible (promoted r e0) l) as Hnel.
    { intros (_ & Hleft & _). apply Hleft.
      rewrite Hn1, Hl, Hadj. exact Hr1. }
    rewrite (tryToEat_skips _ l Hwf1 Hl_range1 Hnel) in H2.
    injection H2 as <- <-.
    split; [| reflexivity].
    rewrite state_at_promoted by (assumption || lia).
    destruct (Z.eqb_spec l r) as [Heq | _]; [| exact Hl0].
    exfalso. apply Hdiff. now rewrite <- Hl.
  - (* ring of four or more: the left neighbour is promoted as well *)
    intros Hn4.
    destruct (ring_of_more n pid Hn4 Hpid) as [Hadj Hdiff].
    assert (l <> r) as Hlr by (rewrite Hl; exact Hdiff).
    assert (eligible (promoted r e0) l) as Hel1.
    { destruct Hel as (_ & Hleft & Hright).
      rewrite Hn0 in Hleft, Hright.
      unfold eligible. rewrite Hn1.
      pose proof (mod_pred_range n l Hl_range) as Hll.
      pose proof (mod_succ_range n l Hl_range) as Hlr'.
      rewrite !state_at_promoted by (assumption || lia).
      destruct (Z.eqb_spec l r) as [? | _]; [contradiction |].
      destruct (Z.eqb_spec ((l - 1) mod n) r) as [Heq | _];
        [rewrite Hl in Heq; contradiction |].
      destruct (Z.eqb_spec ((l + 1) mod n) r) as [Heq | _].
      - exfalso. rewrite Hl, mod_succ_pred in Heq by assumption.
        symmetry in Heq. revert Heq. apply mod_succ_other; lia.
      - auto. }
    rewrite (tryToEat_promotes _ l Hwf1 Hl_range1 Hel1) in H2.
    injection H2 as <- <-.
    split; [| reflexivity].
    rewrite state_at_promoted by (auto || lia). now rewrite Z.eqb_refl.
Qed.

Lemma putForks_order_and_tie_break_witness :
  let e := both_neighbours_hungry in
  let e0 := with_states (<[Z.to_nat 0 := THINKING]> (states_ e)) e in
  exists e1 tr1 e2 tr2,
    tryToEat 1 e0 = Some (tt, e1, tr1) /\
    tryToEat 2 e1 = Some (tt, e2, tr2) /\
    putForks_locked 0 e = Some (tt, e2, tr1 ++ tr2) /\
    state_at e2 0 = Some THINKING /\
    (eligible e0 1 -> eligible e0 2 ->
     state_at e2 1 = Some EATING /\
     (exists rest, tr1 ++ tr2 = Release 1 :: rest) /\
     (3 = 3 -> state_at e2 2 = Some HUNGRY /\ tr1 ++ tr2 = [Release 1]) /\
     (4 <= 3 ->
      state_at e2 2 = Some EATING /\ tr1 ++ tr2 = [Release 1; Release 2])).
Proof.
  apply (putForks_order_and_tie_break both_neighbours_hungry 0).
  - split; [rewrite max_actors_value; simpl; lia | split; reflexivity].
  - simpl. lia.
  - reflexivity.
Defined.

(** * Further properties of the gate and of the engine *)

(** ** Results of the locked blocks, case by case *)

Lemma takeForks_locked_cases e pid :
  well_formed e -> 0 <= pid < numPhils_ e ->
  let e0 := with_states (<[Z.to_nat pid := HUNGRY]> (states_ e)) e in
  well_formed e0 /\
  ((eligible e0 pid /\
    takeForks_locked pid e = Some (tt, promoted pid e0, [Release pid])) \/
   (~ eligible e0 pid /\ takeForks_locked pid e = Some (tt, e0, []))).
Proof.
  intros Hwf Hpid e0.
  assert (well_formed e0) as Hwf0.
  { eapply same_frame_well_formed; [| exact Hwf].
    apply same_frame_with_states, length_insert. }
  split; [exact Hwf0 |].
  assert (write_state pid HUNGRY e = Some (tt, e0, [])) as Hw
    by now apply write_state_total.
  unfold takeForks_locked.
  destruct (tryToEat_cases e0 pid Hwf0 Hpid) as [[Hel Hrun] | [Hnel Hrun]].
  - left. split; [exact Hel |].
    now apply (bind_run _ _ e tt e0 [] tt (promoted pid e0) [Release pid]).
  - right. split; [exact Hnel |].
    now apply (bind_run _ _ e tt e0 [] tt e0 []).
Qed.

(** The body of [putForks] as its three steps, on the indices the claims
    use. *)
Lemma putForks_locked_run e pid :
  well_formed e -> 0 <= pid < numPhils_ e ->
  let n := numPhils_ e in
  let r := (pid + 1) mod n in
  let l := (pid - 1) mod n in
  let e0 := with_states (<[Z.to_nat pid := THINKING]> (states_ e)) e in
  exists e1 tr1 e2 tr2,
    well_formed e0 /\ well_formed e1 /\
    numPhils_ e1 = n /\
    tryToEat r e0 = Some (tt, e1, tr1) /\
    tryToEat l e1 = Some (tt, e2, tr2) /\
    putForks_locked pid e = Some (tt, e2, tr1 ++ tr2).
Proof.
  intros Hwf Hpid n r l e0.
  assert (1 <= n <= max_actors) as Hn by (destruct Hwf as [? _]; lia).
  assert (0 <= r < n) as Hr by (apply mod_succ_range; assumption).
  assert (0 <= l < n) as Hl by (apply mod_pred_range; assumption).
  assert (well_formed e0) as Hwf0.
  { eapply same_frame_well_formed; [| exact Hwf].
    apply same_frame_with_states, length_insert. }
  destruct (tryToEat_total e0 r Hwf0 Hr) as (e1 & tr1 & H1 & Hf1 & _).
  assert (well_formed e1) as Hwf1 by (eapply same_frame_well_formed; eauto).
  assert (numPhils_ e1 = n) as Hn1 by (destruct Hf1 as [-> _]; reflexivity).
  assert (0 <= l < numPhils_ e1) as Hl1 by lia.
  destruct (tryToEat_total e1 l Hwf1 Hl1) as (e2 & tr2 & H2 & _ & _).
  exists e1, tr1, e2, tr2.
  repeat (split; [assumption |]).
  unfold putForks_locked.
  change (Some (tt, e2, tr1 ++ tr2)) with (Some (tt, e2, [] ++ (tr1 ++ tr2))).
  apply (bind_run _ _ e tt e0); [now apply write_state_total |].
  rewrite (bind_pure _ _ _ _ (right_of_run e0 pid Hn Hpid)).
  apply (bind_run _ _ e0 tt e1); [exact H1 |].
  assert (1 <= numPhils_ e1 <= max_actors) as Hn1' by lia.
  assert (0 <= pid < numPhils_ e1) as Hpid1 by lia.
  rewrite (bind_pure _ _ _ _ (left_of_run e1 pid Hn1' Hpid1)).
  rewrite Hn1. exact H2.
Qed.

(** A property of engines kept by a write of a state other than EATING
    and by a promotion made by the rule is kept by both locked blocks. *)
Section StepwiseInvariant.
Variable P : PhilosophersSync -> Prop.
Hypothesis P_write : forall e i s,
  well_formed e -> 0 <= i < numPhils_ e -> s <> EATING ->
  P e -> P (with_states (<[Z.to_nat i := s]> (states_ e)) e).
Hypothesis P_promoted : forall e i,
  well_formed e -> 0 <= i < numPhils_ e -> eligible e i ->
  P e -> P (promoted i e).

Lemma tryToEat_stepwise e i e' tr :
  well_formed e -> 0 <= i < numPhils_ e -> P e ->
  tryToEat i e = Some (tt, e', tr) -> P e'.
Proof using P_promoted.
  intros Hwf Hi HP H.
  destruct (tryToEat_cases e i Hwf Hi) as [[Hel Hrun] | [_ Hrun]];
    rewrite Hrun in H; injection H as <- <-; auto.
Qed.

Lemma takeForks_locked_stepwise e pid u e' tr :
  well_formed e -> P e ->
  takeForks_locked pid e = Some (u, e', tr) -> P e'.
Proof using P_write P_promoted.
  intros Hwf HP H.
  destruct (takeForks_locked_keeps e pid u e' tr Hwf H) as (Hpid & _).
  destruct (takeForks_locked_cases e pid Hwf Hpid)
    as (Hwf0 & [[Hel Hrun] | [_ Hrun]]);
    rewrite Hrun in H; injection H as <- <-.
  - apply P_promoted; [exact Hwf0 | exact Hpid | exact Hel |].
    apply P_write; [exact Hwf | exact Hpid | discriminate | exact HP].
  - apply P_write; [exact Hwf | exact Hpid | discriminate | exact HP].
Qed.

Lemma putForks_locked_stepwise e pid u e' tr :
  well_formed e -> P e ->
  putForks_locked pid e = Some (u, e', tr) -> P e'.
Proof using P_write P_promoted.
  intros Hwf HP H.
  destruct (putForks_locked_keeps e pid u e' tr Hwf H) as (Hpid & _).
  destruct (putForks_locked_run e pid Hwf Hpid)
    as (e1 & tr1 & e2 & tr2 & Hwf0 & Hwf1 & Hn1 & H1 & H2 & Hrun).
  rewrite Hrun in H. injection H as <- <-.
  set (e0 := with_states _ e) in *.
  assert (0 <= (pid + 1) mod numPhils_ e < numPhils_ e) as Hr
    by now apply mod_succ_range.
  assert (0 <= (pid - 1) mod numPhils_ e < numPhils_ e) as Hl
    by now apply mod_pred_range.
  assert (0 <= (pid - 1) mod numPhils_ e < numPhils_ e1) as Hl1 by lia.
  apply (tryToEat_stepwise e1 _ e2 tr2 Hwf1 Hl1); [| exact H2].
  apply (tryToEat_stepwise e0 _ e1 tr1 Hwf0 Hr); [| exact H1].
  apply P_write; [exact Hwf | exact Hpid | discriminate | exact HP].
Qed.
End StepwiseInvariant.

(** ** Invariants of the engine, in general *)

Section EngineInvariant.
Variable n : Z.
Variable P : PhilosophersSync -> Prop.
Hypothesis P_lock : forall e o, P e -> P (with_m o e).
Hypothesis P_take : forall e pid u e' tr,
  engine_invariant n e -> P e ->
  takeForks_locked pid e = Some (u, e', tr) -> P e'.
Hypothesis P_put : forall e pid u e' tr,
  engine_invariant n e -> P e ->
  putForks_locked pid e = Some (u, e', tr) -> P e'.
Hypothesis P_gate : forall e pid g g',
  P e -> sem_at e pid = Some g ->
  BinarySemaphore.acquire_enter g = BinarySemaphore.Returned g' \/
  BinarySemaphore.acquire_enter g = BinarySemaphore.Parked g' \/
  BinarySemaphore.acquire_wake g = Some g' ->
  P (with_sems (<[Z.to_nat pid := g']> (sems_ e)) e).

Lemma next_invariant t p o e e' p' :
  engine_invariant n e -> P e -> next t p o e = Some (e', p') -> P e'.
Proof using P_lock P_take P_put P_gate.
  intros Hinv HP H.
  destruct p, o as [[] |]; simpl in H; try discriminate;
    try (injection H as <- <-; first [exact HP | now apply P_lock]);
    try (unfold lock in H; destruct (m_ e) eqn:Hm; [discriminate |];
         injection H as <- <-; now apply P_lock).
  - destruct (takeForks_locked pid e) as [[[u e1] tr] |] eqn:Hb; [| discriminate].
    injection H as <- <-. eapply P_take; eauto.
  - unfold acquire_sem in H.
    destruct (sem_at e pid) as [g |] eqn:Hg; [| discriminate].
    destruct (BinarySemaphore.acquire_enter g) as [g' | g'] eqn:Ha;
      injection H as <- <-; eapply P_gate; eauto.
  - unfold wake_sem in H.
    destruct (sem_at e pid) as [g |] eqn:Hg; [| discriminate].
    destruct (BinarySemaphore.acquire_wake g) as [g' |] eqn:Ha; [| discriminate].
    injection H as <- <-. eapply P_gate; eauto.
  - destruct (putForks_locked pid e) as [[[u e1] tr] |] eqn:Hb; [| discriminate].
    injection H as <- <-. eapply P_put; eauto.
Qed.

Lemma run_invariant sched : forall σ σ',
  engine_invariant n (engine σ) -> P (engine σ) ->
  run sched σ = Some σ' -> P (engine σ').
Proof using P_lock P_take P_put P_gate.
  induction sched as [| [t o] rest IH]; intros σ σ' Hinv HP H; simpl in H.
  - now injection H as <-.
  - destruct (step t o σ) as [σ1 |] eqn:Hs; [| discriminate].
    apply (IH σ1 σ'); [eapply step_engine_invariant; eauto | | exact H].
    unfold step in Hs.
    destruct (threads σ !! t) as [p |]; [| discriminate].
    destruct (next t p o (engine σ)) as [[e' p'] |] eqn:Hn; [| discriminate].
    injection Hs as <-. simpl. eapply next_invariant; eauto.
Qed.

Lemma reachable_invariant k σ :
  0 <= n <= max_actors ->
  (forall e, PhilosophersSync_new n = Some e -> P e) ->
  reachable n k σ -> P (engine σ).
Proof using P_lock P_take P_put P_gate.
  intros Hn Hnew (σ0 & sched & Hb & Hr).
  apply boot_inv in Hb as [He _].
  eapply run_invariant; [| | exact Hr].
  - now apply new_engine_invariant.
  - now apply Hnew.
Qed.
End EngineInvariant.

(** ** The gates hold 0 or 1 *)

(** Whatever value the gate is built with, its counter is 0 or 1: 0 for
    an argument of 0 (or below), 1 for every argument from 1 on. *)
Lemma BinarySemaphore_new_clamps (v : Z) :
  binary (BinarySemaphore.new v) /\
  (BinarySemaphore.unavailable (BinarySemaphore.new v) <-> v <= 0) /\
  (BinarySemaphore.available (BinarySemaphore.new v) <-> 1 <= v).
Proof.
  unfold binary, BinarySemaphore.unavailable, BinarySemaphore.available.
  simpl. lia.
Qed.

Lemma gate_result_binary g g' :
  binary g ->
  BinarySemaphore.acquire_enter g = BinarySemaphore.Returned g' \/
  BinarySemaphore.acquire_enter g = BinarySemaphore.Parked g' \/
  BinarySemaphore.acquire_wake g = Some g' ->
  binary g'.
Proof.
  unfold BinarySemaphore.acquire_enter, BinarySemaphore.acquire_wake.
  intros Hg [H | [H | H]]; destruct (BinarySemaphore.v_ g =? 1);
    try discriminate; injection H as <-; auto.
  now left.
Qed.

Lemma sem_at_Forall (Q : BinarySemaphore.t -> Prop) e i g :
  Forall Q (sems_ e) -> sem_at e i = Some g -> Q g.
Proof.
  intros HQ H. unfold sem_at, vec_get in H.
  destruct (i <? 0); [discriminate |].
  eapply Forall_lookup_1; eauto.
Qed.

Lemma gates_binary_promoted e i : gates_binary e -> gates_binary (promoted i e).
Proof.
  unfold gates_binary. simpl. intros H.
  apply Forall_insert; [exact H | now right].
Qed.

Lemma gates_binary_new n e :
  PhilosophersSync_new n = Some e -> gates_binary e.
Proof.
  intros H. destruct (new_fields n e H) as (_ & _ & _ & Hs).
  unfold gates_binary. rewrite Hs. apply Forall_forall.
  intros g Hg. apply list_elem_of_In, repeat_spec in Hg as ->. now left.
Qed.

Lemma reachable_gates_binary n k σ :
  0 <= n <= max_actors -> reachable n k σ -> gates_binary (engine σ).
Proof.
  intros Hn. apply (reachable_invariant n gates_binary); [| | | | exact Hn |].
  - intros e o H. exact H.
  - intros e pid u e' tr (_ & Hwf & _) HP H.
    exact (takeForks_locked_stepwise gates_binary
             (fun e0 _ _ _ _ _ H0 => H0)
             (fun e0 i0 _ _ _ H0 => gates_binary_promoted e0 i0 H0)
             e pid u e' tr Hwf HP H).
  - intros e pid u e' tr (_ & Hwf & _) HP H.
    exact (putForks_locked_stepwise gates_binary
             (fun e0 _ _ _ _ _ H0 => H0)
             (fun e0 i0 _ _ _ H0 => gates_binary_promoted e0 i0 H0)
             e pid u e' tr Hwf HP H).
  - intros e pid g g' HP Hg Hres. unfold gates_binary. simpl.
    apply Forall_insert; [exact HP |].
    apply (gate_result_binary g); [| exact Hres].
    eapply sem_at_Forall; eauto.
  - apply gates_binary_new.
Qed.

(** X1. In every state the threads can reach, every gate of the engine
    holds 0 or 1: no sequence of promotions and of [acquire()] calls makes
    a gate count above one permit or below none. *)
Theorem gates_stay_binary
  (n : Z) (k : nat) (σ : System) (i : Z) (g : BinarySemaphore.t) :
  0 <= n <= max_actors ->
  reachable n k σ ->
  sem_at (engine σ) i = Some g ->
  BinarySemaphore.unavailable g \/ BinarySemaphore.available g.
Proof.
  intros Hn Hreach Hg.
  apply (sem_at_Forall binary (engine σ) i g); [| exact Hg].
  now apply (reachable_gates_binary n k).
Qed.

Ltac bounds := rewrite max_actors_value; lia.
Ltac by_schedule sched := eexists; exists sched; split; reflexivity.

Lemma gates_stay_binary_witness :
  BinarySemaphore.unavailable (BinarySemaphore.Make 0) \/
  BinarySemaphore.available (BinarySemaphore.Make 0).
Proof.
  apply (gates_stay_binary 3 2 one_eating_one_parked 1 (BinarySemaphore.Make 0)).
  - bounds.
  - by_schedule to_one_eating_one_parked.
  - reflexivity.
Defined.

(** ** No promotion is left undone *)

Lemma eligible_promoted_inv e i k :
  well_formed e -> 0 <= i < numPhils_ e -> 0 <= k < numPhils_ e ->
  eligible (promoted i e) k ->
  eligible e k /\ k <> i /\
  (k - 1) mod numPhils_ e <> i /\ (k + 1) mod numPhils_ e <> i.
Proof.
  intros Hwf Hi Hk (Hs & Hl & Hr).
  change (numPhils_ (promoted i e)) with (numPhils_ e) in Hl, Hr.
  pose proof (mod_pred_range _ _ Hk) as Hkl.
  pose proof (mod_succ_range _ _ Hk) as Hkr.
  rewrite state_at_promoted in Hs, Hl, Hr by (assumption || lia).
  destruct (Z.eqb_spec k i); [discriminate |].
  destruct (Z.eqb_spec ((k - 1) mod numPhils_ e) i); [congruence |].
  destruct (Z.eqb_spec ((k + 1) mod numPhils_ e) i); [congruence |].
  repeat split; assumption.
Qed.

Lemma eligible_write_inv e pid s k :
  well_formed e -> 0 <= pid < numPhils_ e -> 0 <= k < numPhils_ e ->
  eligible (with_states (<[Z.to_nat pid := s]> (states_ e)) e) k ->
  k = pid \/ eligible e k \/
  (state_at e pid = Some EATING /\
   ((k - 1) mod numPhils_ e = pid \/ (k + 1) mod numPhils_ e = pid)).
Proof.
  intros Hwf Hpid Hk (Hs & Hl & Hr).
  change (numPhils_ (with_states _ e)) with (numPhils_ e) in Hl, Hr.
  pose proof (mod_pred_range _ _ Hk) as Hkl.
  pose proof (mod_succ_range _ _ Hk) as Hkr.
  rewrite state_at_with_states in Hs, Hl, Hr by (assumption || lia).
  destruct (Z.eqb_spec k pid) as [| Hne]; [now left |]. right.
  destruct (state_at_defined e pid Hwf Hpid) as [[] Hp].
  - left. repeat split; [assumption | |].
    + destruct (Z.eqb_spec ((k - 1) mod numPhils_ e) pid) as [-> |];
        [congruence | assumption].
    + destruct (Z.eqb_spec ((k + 1) mod numPhils_ e) pid) as [-> |];
        [congruence | assumption].
  - left. repeat split; [assumption | |].
    + destruct (Z.eqb_spec ((k - 1) mod numPhils_ e) pid) as [-> |];
        [congruence | assumption].
    + destruct (Z.eqb_spec ((k + 1) mod numPhils_ e) pid) as [-> |];
        [congruence | assumption].
  - destruct (Z.eqb_spec ((k - 1) mod numPhils_ e) pid) as [Heq |];
      [right; auto |].
    destruct (Z.eqb_spec ((k + 1) mod numPhils_ e) pid) as [Heq |];
      [right; auto |].
    left. repeat split; assumption.
Qed.

(** After [tryToEat(i)] actor [i] no longer passes the test, and nobody
    passes it who did not before. *)
Lemma tryToEat_clears e i e' tr :
  well_formed e -> 0 <= i < numPhils_ e ->
  tryToEat i e = Some (tt, e', tr) ->
  ~ eligible e' i /\
  (forall k, 0 <= k < numPhils_ e -> eligible e' k -> eligible e k).
Proof.
  intros Hwf Hi H.
  destruct (tryToEat_cases e i Hwf Hi) as [[Hel Hrun] | [Hnel Hrun]];
    rewrite Hrun in H; injection H as <- <-.
  - split.
    + intros Hc.
      apply (eligible_promoted_inv e i i Hwf Hi Hi) in Hc as (_ & Hc & _).
      now apply Hc.
    + intros k Hk Hc.
      now apply (eligible_promoted_inv e i k Hwf Hi Hk) in Hc as (Hc & _).
  - split; auto.
Qed.

(** An EATING actor of a separated engine passes the test again as soon
    as it is written HUNGRY. *)
Lemma eligible_after_eating e pid :
  well_formed e -> 0 <= pid < numPhils_ e -> separated e ->
  state_at e pid = Some EATING ->
  eligible (with_states (<[Z.to_nat pid := HUNGRY]> (states_ e)) e) pid.
Proof.
  intros Hwf Hpid Hsep He.
  pose proof (mod_pred_range _ _ Hpid) as Hl.
  pose proof (mod_succ_range _ _ Hpid) as Hr.
  unfold eligible. change (numPhils_ (with_states _ e)) with (numPhils_ e).
  rewrite !state_at_with_states by (assumption || lia).
  rewrite Z.eqb_refl. split; [reflexivity |]. split.
  - destruct (Z.eqb_spec ((pid - 1) mod numPhils_ e) pid) as [| Hne];
      [discriminate |].
    intros Hc. apply (Hsep _ Hl Hc); rewrite mod_succ_pred by assumption; auto.
  - destruct (Z.eqb_spec ((pid + 1) mod numPhils_ e) pid) as [| Hne];
      [discriminate |].
    now apply Hsep.
Qed.

Lemma settled_takeForks n e pid u e' tr :
  engine_invariant n e -> settled e ->
  takeForks_locked pid e = Some (u, e', tr) -> settled e'.
Proof.
  intros (Hn & Hwf & Hsep) Hset H.
  destruct (takeForks_locked_keeps e pid u e' tr Hwf H) as (Hpid & Hf & _).
  destruct (takeForks_locked_cases e pid Hwf Hpid)
    as (Hwf0 & [[Hel Hrun] | [Hnel Hrun]]);
    rewrite Hrun in H; injection H as <- <-; intros k Hk Hc; simpl in Hk.
  - apply (eligible_promoted_inv _ pid k Hwf0 Hpid Hk) in Hc
      as (Hc & Hne & Hl & Hr).
    simpl in Hl, Hr.
    apply (eligible_write_inv e pid HUNGRY k Hwf Hpid Hk) in Hc
      as [? | [Hc | (_ & [? | ?])]]; try contradiction.
    now apply (Hset k).
  - assert (k <> pid) as Hne by (intros ->; contradiction).
    apply (eligible_write_inv e pid HUNGRY k Hwf Hpid Hk) in Hc
      as [? | [Hc | (He & _)]]; try contradiction.
    + now apply (Hset k).
    + apply Hnel. now apply eligible_after_eating.
Qed.

Lemma settled_putForks n e pid u e' tr :
  engine_invariant n e -> settled e ->
  putForks_locked pid e = Some (u, e', tr) -> settled e'.
Proof.
  intros (Hn & Hwf & Hsep) Hset H.
  destruct (putForks_locked_keeps e pid u e' tr Hwf H) as (Hpid & Hf & _).
  destruct (putForks_locked_run e pid Hwf Hpid)
    as (e1 & tr1 & e2 & tr2 & Hwf0 & Hwf1 & Hn1 & H1 & H2 & Hrun).
  rewrite Hrun in H. injection H as <- <-.
  set (e0 := with_states _ e) in *.
  pose proof (mod_pred_range _ _ Hpid) as Hl.
  pose proof (mod_succ_range _ _ Hpid) as Hr.
  assert (0 <= (pid - 1) mod numPhils_ e < numPhils_ e1) as Hl1 by lia.
  destruct (tryToEat_clears e0 _ e1 tr1 Hwf0 Hr H1) as [Hcr Hmono1].
  destruct (tryToEat_clears e1 _ e2 tr2 Hwf1 Hl1 H2) as [Hcl Hmono2].
  assert (numPhils_ e2 = numPhils_ e) as Hn2 by (destruct Hf as [-> _]; reflexivity).
  intros k Hk Hc. rewrite Hn2 in Hk.
  assert (k <> (pid - 1) mod numPhils_ e) as Hkl by (intros ->; contradiction).
  apply Hmono2 in Hc; [| lia].
  assert (k <> (pid + 1) mod numPhils_ e) as Hkr by (intros ->; contradiction).
  apply Hmono1 in Hc; [| exact Hk].
  assert (state_at e0 pid = Some THINKING) as Hp0.
  { unfold e0. rewrite state_at_with_states by (assumption || lia).
    now rewrite Z.eqb_refl. }
  pose proof Hc as (Hs0 & _).
  apply (eligible_write_inv e pid THINKING k Hwf Hpid Hk) in Hc
    as [-> | [Hc | (_ & [Heq | Heq])]].
  - congruence.
  - now apply (Hset k).
  - apply Hkr. rewrite <- Heq. symmetry. now apply mod_succ_pred.
  - apply Hkl. rewrite <- Heq. symmetry. now apply mod_pred_succ.
Qed.

Lemma settled_new n e : PhilosophersSync_new n = Some e -> settled e.
Proof.
  intros H. destruct (new_fields n e H) as (_ & _ & Hs & _).
  intros i _ (Hi & _). unfold state_at in Hi. rewrite Hs in Hi.
  apply vec_get_repeat_inv in Hi. discriminate.
Qed.

Lemma reachable_settled n k σ :
  0 <= n <= max_actors -> reachable n k σ -> settled (engine σ).
Proof.
  intros Hn. apply (reachable_invariant n settled); [| | | | exact Hn |].
  - intros e o H. exact H.
  - apply settled_takeForks.
  - apply settled_putForks.
  - intros e pid g g' H _ _. exact H.
  - apply settled_new.
Qed.

(** X2. In every state the threads can reach, an actor that is HUNGRY
    has an EATING neighbour: the locked blocks never leave an actor HUNGRY
    that the promotion rule would let eat. *)
Theorem hungry_actor_has_eating_neighbour
  (n : Z) (k : nat) (σ : System) (i : Z) :
  0 <= n <= max_actors ->
  reachable n k σ ->
  state_at (engine σ) i = Some HUNGRY ->
  state_at (engine σ) ((i - 1) mod n) = Some EATING \/
  state_at (engine σ) ((i + 1) mod n) = Some EATING.
Proof.
  intros Hn Hreach Hi.
  destruct (reachable_engine_invariant n k σ Hn Hreach) as (Hnum & Hwf & _).
  pose proof (reachable_settled n k σ Hn Hreach) as Hset.
  assert (0 <= i < numPhils_ (engine σ)) as Hrange
    by (eapply state_at_range; eauto).
  specialize (Hset i Hrange). unfold eligible in Hset. rewrite Hnum in Hset.
  destruct (state_at (engine σ) ((i - 1) mod n)) as [[] |];
    destruct (state_at (engine σ) ((i + 1) mod n)) as [[] |]; auto;
    exfalso; apply Hset; repeat split; (assumption || discriminate).
Qed.

Lemma hungry_actor_has_eating_neighbour_witness :
  state_at (engine one_eating_one_parked) ((1 - 1) mod 3) = Some EATING \/
  state_at (engine one_eating_one_parked) ((1 + 1) mod 3) = Some EATING.
Proof.
  apply (hungry_actor_has_eating_neighbour 3 2 one_eating_one_parked 1).
  - bounds.
  - by_schedule to_one_eating_one_parked.
  - reflexivity.
Defined.

(** ** What the locked blocks touch *)

Lemma vec_get_insert_ne {A} (v : list A) i k x :
  0 <= i -> k <> i -> vec_get (<[Z.to_nat i := x]> v) k = vec_get v k.
Proof.
  intros Hi Hne. unfold vec_get. destruct (Z.ltb_spec k 0); [reflexivity |].
  apply list_lookup_insert_ne. lia.
Qed.

Lemma vec_get_insert_eq {A} (v : list A) i x :
  0 <= i < Z.of_nat (length v) -> vec_get (<[Z.to_nat i := x]> v) i = Some x.
Proof.
  intros Hi. rewrite vec_get_insert by lia. now rewrite Z.eqb_refl.
Qed.

Lemma sem_at_promoted_eq e i :
  well_formed e -> 0 <= i < numPhils_ e ->
  sem_at (promoted i e) i = Some (BinarySemaphore.Make 1).
Proof.
  intros (Hn & _ & Hlen) Hi. unfold sem_at. simpl.
  apply vec_get_insert_eq. lia.
Qed.

Lemma state_at_promoted_eq e i :
  well_formed e -> 0 <= i < numPhils_ e ->
  state_at (promoted i e) i = Some EATING.
Proof.
  intros (Hn & Hlen & _) Hi. unfold state_at. simpl.
  apply vec_get_insert_eq. lia.
Qed.

Lemma promoted_other e i k :
  0 <= i -> k <> i ->
  state_at (promoted i e) k = state_at e k /\
  sem_at (promoted i e) k = sem_at e k.
Proof.
  intros Hi Hne. unfold state_at, sem_at. simpl.
  split; now apply vec_get_insert_ne.
Qed.

Lemma written_other e i s k :
  0 <= i -> k <> i ->
  state_at (with_states (<[Z.to_nat i := s]> (states_ e)) e) k = state_at e k.
Proof. intros Hi Hne. unfold state_at. simpl. now apply vec_get_insert_ne. Qed.

Lemma written_eq e i s :
  well_formed e -> 0 <= i < numPhils_ e ->
  state_at (with_states (<[Z.to_nat i := s]> (states_ e)) e) i = Some s.
Proof.
  intros (Hn & Hlen & _) Hi. unfold state_at. simpl.
  apply vec_get_insert_eq. lia.
Qed.

(** The effect of [tryToEat(i)] on every actor and on every gate. *)
Lemma tryToEat_effect e i e' tr :
  well_formed e -> 0 <= i < numPhils_ e ->
  tryToEat i e = Some (tt, e', tr) ->
  (forall k, k <> i ->
     state_at e' k = state_at e k /\ sem_at e' k = sem_at e k) /\
  ((eligible e i /\ state_at e' i = Some EATING /\
    sem_at e' i = Some (BinarySemaphore.Make 1) /\ tr = [Release i]) \/
   (~ eligible e i /\ e' = e /\ tr = [])).
Proof.
  intros Hwf Hi H.
  destruct (tryToEat_cases e i Hwf Hi) as [[Hel Hrun] | [Hnel Hrun]];
    rewrite Hrun in H; injection H as <- <-.
  - split; [intros k Hk; apply promoted_other; [lia | exact Hk] |].
    left. split; [exact Hel |].
    split; [now apply state_at_promoted_eq |].
    split; [now apply sem_at_promoted_eq | reflexivity].
  - split; [auto |]. right. auto.
Qed.

(** X3. On a well-formed engine the locked blocks of [takeForks(pid)] and
    of [putForks(pid)] have defined behaviour exactly for the actor
    indices [0 <= pid < numPhils_]; every other [pid] indexes outside
    the vectors. *)
Theorem locked_blocks_defined_in_range (e : PhilosophersSync) (pid : Z) :
  well_formed e ->
  (is_Some (takeForks_locked pid e) <-> 0 <= pid < numPhils_ e) /\
  (is_Some (putForks_locked pid e) <-> 0 <= pid < numPhils_ e).
Proof.
  intros Hwf. split; split.
  - intros [[[u e'] tr] H]. now apply takeForks_locked_keeps in H as [? _].
  - intros Hpid.
    destruct (takeForks_locked_cases e pid Hwf Hpid) as (_ & [[_ H] | [_ H]]);
      rewrite H; eauto.
  - intros [[[u e'] tr] H]. now apply putForks_locked_keeps in H as [? _].
  - intros Hpid.
    destruct (putForks_locked_run e pid Hwf Hpid)
      as (e1 & tr1 & e2 & tr2 & _ & _ & _ & _ & _ & H).
    rewrite H. eauto.
Qed.

Lemma locked_blocks_defined_in_range_witness :
  ((is_Some (takeForks_locked 1 both_neighbours_hungry) <-> 0 <= 1 < 3) /\
   (is_Some (putForks_locked 1 both_neighbours_hungry) <-> 0 <= 1 < 3)) /\
  ((is_Some (takeForks_locked 3 both_neighbours_hungry) <-> 0 <= 3 < 3) /\
   (is_Some (putForks_locked 3 both_neighbours_hungry) <-> 0 <= 3 < 3)).
Proof.
  assert (well_formed both_neighbours_hungry) as Hwf
    by (split; [rewrite max_actors_value; simpl; lia | split; reflexivity]).
  split.
  - exact (locked_blocks_defined_in_range both_neighbours_hungry 1 Hwf).
  - exact (locked_blocks_defined_in_range both_neighbours_hungry 3 Hwf).
Defined.

(** X4. The locked block of [takeForks(pid)], whatever the state of
    [pid] was: if no neighbour of [pid] other than [pid] itself is EATING,
    [pid] is EATING afterwards and its gate was released, once; otherwise
    [pid] is HUNGRY afterwards, its gate is as it was and no gate was
    released. In both cases the state and the gate of every other actor,
    the mutex and [numPhils_] are as before. *)
Theorem takeForks_locked_effect (e : PhilosophersSync) (pid : Z) :
  well_formed e ->
  0 <= pid < numPhils_ e ->
  let n := numPhils_ e in
  let free :=
    ((pid - 1) mod n <> pid -> state_at e ((pid - 1) mod n) <> Some EATING) /\
    ((pid + 1) mod n <> pid -> state_at e ((pid + 1) mod n) <> Some EATING) in
  exists e' tr,
    takeForks_locked pid e = Some (tt, e', tr) /\
    numPhils_ e' = n /\ m_ e' = m_ e /\
    (forall k, k <> pid ->
       state_at e' k = state_at e k /\ sem_at e' k = sem_at e k) /\
    ((free /\ state_at e' pid = Some EATING /\
      sem_at e' pid = Some (BinarySemaphore.Make 1) /\ tr = [Release pid]) \/
     (~ free /\ state_at e' pid = Some HUNGRY /\
      sem_at e' pid = sem_at e pid /\ tr = [])).
Proof.
  intros Hwf Hpid. cbv zeta.
  pose proof (mod_pred_range _ _ Hpid) as Hl.
  pose proof (mod_succ_range _ _ Hpid) as Hr.
  set (n := numPhils_ e) in *.
  set (free := (_ -> _) /\ (_ -> _)).
  set (e0 := with_states (<[Z.to_nat pid := HUNGRY]> (states_ e)) e).
  assert (eligible e0 pid <-> free) as Hfree.
  { unfold eligible, free. change (numPhils_ e0) with n. unfold e0.
    rewrite !state_at_with_states by (assumption || lia).
    rewrite Z.eqb_refl.
    destruct (Z.eqb_spec ((pid - 1) mod n) pid) as [El | Nl];
      destruct (Z.eqb_spec ((pid + 1) mod n) pid) as [Er | Nr];
      (split;
       [ intros (_ & HL & HR); split; intros ?; (assumption || contradiction)
       | intros (HL & HR); split; [reflexivity |];
         split; first [discriminate | now apply HL | now apply HR] ]). }
  destruct (takeForks_locked_cases e pid Hwf Hpid) as (Hwf0 & Hcases).
  fold e0 in Hwf0, Hcases.
  destruct Hcases as [[Hel Hrun] | [Hnel Hrun]]; rewrite Hrun.
  - exists (promoted pid e0), [Release pid].
    split; [reflexivity |]. split; [reflexivity |]. split; [reflexivity |].
    split.
    + intros k Hk.
      destruct (promoted_other e0 pid k ltac:(lia) Hk) as [-> ->].
      split; [apply written_other; [lia | exact Hk] | reflexivity].
    + left. split; [now apply Hfree |].
      split; [now apply state_at_promoted_eq |].
      split; [now apply sem_at_promoted_eq | reflexivity].
  - exists e0, []. split; [reflexivity |]. split; [reflexivity |].
    split; [reflexivity |]. split.
    + intros k Hk. split; [apply written_other; [lia | exact Hk] | reflexivity].
    + right. split; [now rewrite <- Hfree |].
      split; [now apply written_eq | split; reflexivity].
Qed.

Lemma takeForks_locked_effect_witness :
  let e := both_neighbours_hungry in
  let free :=
    ((1 - 1) mod 3 <> 1 -> state_at e ((1 - 1) mod 3) <> Some EATING) /\
    ((1 + 1) mod 3 <> 1 -> state_at e ((1 + 1) mod 3) <> Some EATING) in
  exists e' tr,
    takeForks_locked 1 e = Some (tt, e', tr) /\
    numPhils_ e' = 3 /\ m_ e' = m_ e /\
    (forall k, k <> 1 ->
       state_at e' k = state_at e k /\ sem_at e' k = sem_at e k) /\
    ((free /\ state_at e' 1 = Some EATING /\
      sem_at e' 1 = Some (BinarySemaphore.Make 1) /\ tr = [Release 1]) \/
     (~ free /\ state_at e' 1 = Some HUNGRY /\
      sem_at e' 1 = sem_at e 1 /\ tr = [])).
Proof.
  apply (takeForks_locked_effect both_neighbours_hungry 1).
  - split; [rewrite max_actors_value; simpl; lia | split; reflexivity].
  - simpl. lia.
Defined.

Lemma tryToEat_release_only e i e' tr k :
  well_formed e -> 0 <= i < numPhils_ e ->
  tryToEat i e = Some (tt, e', tr) ->
  In (Release k) tr -> k = i /\ tr = [Release i].
Proof.
  intros Hwf Hi H Hin.
  destruct (tryToEat_effect e i e' tr Hwf Hi H) as (_ & [(_ & _ & _ & ->) | (_ & _ & ->)]).
  - destruct Hin as [[= ->] | []]. auto.
  - destruct Hin.
Qed.

(** One [tryToEat] leaves every actor alone or wakes it. *)
Lemma tryToEat_actor e i e' tr k :
  well_formed e -> 0 <= i < numPhils_ e ->
  tryToEat i e = Some (tt, e', tr) ->
  left_alone k e e' tr \/ (woken k e e' tr /\ k = i).
Proof.
  intros Hwf Hi H.
  destruct (tryToEat_effect e i e' tr Hwf Hi H) as (Hother & Hself).
  destruct (Z.eq_dec k i) as [-> | Hne].
  - destruct Hself as [((Hs & _) & He & Hg & ->) | (_ & -> & ->)].
    + right. split; [| reflexivity]. repeat split; auto. now left.
    + left. repeat split; auto.
  - left. destruct (Hother k Hne) as [? ?]. repeat split; auto.
    intros Hin. apply (tryToEat_release_only e i e' tr k Hwf Hi H) in Hin as [? _].
    contradiction.
Qed.

(** Two locked steps in a row wake an actor at most once. *)
Lemma actor_two_steps k e0 e1 e2 tr1 tr2 :
  left_alone k e0 e1 tr1 \/ woken k e0 e1 tr1 ->
  left_alone k e1 e2 tr2 \/ woken k e1 e2 tr2 ->
  left_alone k e0 e2 (tr1 ++ tr2) \/ woken k e0 e2 (tr1 ++ tr2).
Proof.
  intros [(Hs1 & Hg1 & Hn1) | (Hs1 & He1 & Hg1 & Hi1)]
         [(Hs2 & Hg2 & Hn2) | (Hs2 & He2 & Hg2 & Hi2)].
  - left. repeat split; [congruence | congruence |].
    intros Hin. apply in_app_or in Hin as [? | ?]; contradiction.
  - right. repeat split; [congruence | assumption | assumption |].
    apply in_or_app. now right.
  - right. repeat split; [assumption | congruence | congruence |].
    apply in_or_app. now left.
  - congruence.
Qed.

(** X5. The body of [putForks(pid)] on a well-formed engine: [pid] is
    THINKING afterwards and its own gate is neither released nor changed;
    every other actor is either left as it was, state and gate, or was
    HUNGRY, is EATING afterwards and had its gate released, and that
    happens to the two neighbours of [pid] only; at most two gates are
    released; the mutex and [numPhils_] are as before. *)
Theorem putForks_locked_effect (e : PhilosophersSync) (pid : Z) :
  well_formed e ->
  0 <= pid < numPhils_ e ->
  let n := numPhils_ e in
  exists e' tr,
    putForks_locked pid e = Some (tt, e', tr) /\
    numPhils_ e' = n /\ m_ e' = m_ e /\
    state_at e' pid = Some THINKING /\
    sem_at e' pid = sem_at e pid /\
    ~ In (Release pid) tr /\
    (forall k, k <> pid ->
       left_alone k e e' tr \/
       (woken k e e' tr /\ (k = (pid + 1) mod n \/ k = (pid - 1) mod n))) /\
    (length tr <= 2)%nat.
Proof.
  intros Hwf Hpid. cbv zeta.
  destruct (putForks_locked_run e pid Hwf Hpid)
    as (e1 & tr1 & e2 & tr2 & Hwf0 & Hwf1 & Hn1 & H1 & H2 & Hrun).
  set (e0 := with_states _ e) in *.
  set (n := numPhils_ e) in *.
  pose proof (mod_pred_range _ _ Hpid) as Hl.
  pose proof (mod_succ_range _ _ Hpid) as Hr.
  assert (0 <= (pid - 1) mod n < numPhils_ e1) as Hl1 by lia.
  destruct (putForks_locked_keeps e pid tt e2 _ Hwf Hrun) as (_ & Hf & _).
  assert (forall k,
            left_alone k e0 e2 (tr1 ++ tr2) \/
            (woken k e0 e2 (tr1 ++ tr2) /\
             (k = (pid + 1) mod n \/ k = (pid - 1) mod n))) as Hall.
  { intros k.
    pose proof (tryToEat_actor e0 _ e1 tr1 k Hwf0 Hr H1) as A1.
    pose proof (tryToEat_actor e1 _ e2 tr2 k Hwf1 Hl1 H2) as A2.
    assert (left_alone k e0 e2 (tr1 ++ tr2) \/ woken k e0 e2 (tr1 ++ tr2))
      as [? | Hw] by (apply (actor_two_steps k e0 e1 e2); tauto).
    - now left.
    - right. split; [exact Hw |].
      destruct A1 as [L1 | [_ ?]]; [| now left].
      destruct A2 as [L2 | [_ ?]]; [| now right].
      exfalso. destruct Hw as (_ & _ & _ & Hin).
      destruct L1 as (_ & _ & N1), L2 as (_ & _ & N2).
      apply in_app_or in Hin as [? | ?]; contradiction. }
  assert (state_at e0 pid = Some THINKING) as Hp0 by now apply written_eq.
  exists e2, (tr1 ++ tr2).
  split; [exact Hrun |]. split; [apply Hf |]. split; [apply Hf |].
  destruct (Hall pid) as [(Hs & Hg & Hn) | ((Hs & _) & _)]; [| congruence].
  split; [congruence |]. split; [exact Hg |]. split; [exact Hn |]. split.
  - intros k Hk.
    assert (state_at e0 k = state_at e k) as Hsk
      by (apply written_other; [lia | exact Hk]).
    destruct (Hall k) as [(Hs' & Hg' & Hn') | ((Hs' & He' & Hg' & Hi') & Hwho)].
    + left. repeat split; [congruence | exact Hg' | exact Hn'].
    + right. split; [| exact Hwho].
      repeat split; [congruence | exact He' | exact Hg' | exact Hi'].
  - rewrite length_app.
    assert (forall i e e' tr, well_formed e -> 0 <= i < numPhils_ e ->
              tryToEat i e = Some (tt, e', tr) -> (length tr <= 1)%nat) as Hlen.
    { intros i ea eb tr Hw Hi H.
      destruct (tryToEat_effect ea i eb tr Hw Hi H)
        as (_ & [(_ & _ & _ & ->) | (_ & _ & ->)]); simpl; lia. }
    pose proof (Hlen _ _ _ _ Hwf0 Hr H1).
    pose proof (Hlen _ _ _ _ Hwf1 Hl1 H2). lia.
Qed.

Lemma putForks_locked_effect_witness :
  let e := both_neighbours_hungry in
  exists e' tr,
    putForks_locked 0 e = Some (tt, e', tr) /\
    numPhils_ e' = 3 /\ m_ e' = m_ e /\
    state_at e' 0 = Some THINKING /\
    sem_at e' 0 = sem_at e 0 /\
    ~ In (Release 0) tr /\
    (forall k, k <> 0 ->
       left_alone k e e' tr \/
       (woken k e e' tr /\ (k = (0 + 1) mod 3 \/ k = (0 - 1) mod 3))) /\
    (length tr <= 2)%nat.
Proof.
  apply (putForks_locked_effect both_neighbours_hungry 0).
  - split; [rewrite max_actors_value; simpl; lia | split; reflexivity].
  - simpl. lia.
Defined.

(** ** Evaluating the rule again, and eating once *)

(** X6. A second [tryToEat(i)] right after a first one changes nothing
    and releases nothing: whether the first promoted [i] or not, [i] does
    not pass the test afterwards. *)
Theorem tryToEat_twice (e : PhilosophersSync) (i : Z) :
  well_formed e ->
  0 <= i < numPhils_ e ->
  exists e' tr,
    tryToEat i e = Some (tt, e', tr) /\
    tryToEat i e' = Some (tt, e', []).
Proof.
  intros Hwf Hi.
  destruct (tryToEat_total e i Hwf Hi) as (e' & tr & H & Hf & _).
  exists e', tr. split; [exact H |].
  assert (well_formed e') as Hwf' by (eapply same_frame_well_formed; eauto).
  assert (0 <= i < numPhils_ e') as Hi' by (destruct Hf as [-> _]; exact Hi).
  apply tryToEat_skips; [exact Hwf' | exact Hi' |].
  now apply (tryToEat_clears e i e' tr).
Qed.

Lemma tryToEat_twice_witness :
  exists e' tr,
    tryToEat 1 (with_states [THINKING; HUNGRY; THINKING] all_thinking)
    = Some (tt, e', tr) /\
    tryToEat 1 e' = Some (tt, e', []).
Proof.
  apply (tryToEat_twice (with_states [THINKING; HUNGRY; THINKING] all_thinking) 1).
  - split; [rewrite max_actors_value; simpl; lia | split; reflexivity].
  - simpl. lia.
Defined.

Lemma eligible_same_states e e' i :
  numPhils_ e' = numPhils_ e -> states_ e' = states_ e ->
  eligible e' i -> eligible e i.
Proof. unfold eligible, state_at. intros -> ->. auto. Qed.

Lemma tryToEat_settled e i :
  well_formed e -> 0 <= i < numPhils_ e -> settled e ->
  tryToEat i e = Some (tt, e, []).
Proof. intros Hwf Hi Hset. apply tryToEat_skips; auto. Qed.

(** X7. Let the engine be well formed with no promotion left undone, and
    let [pid] be THINKING. The locked block of [takeForks(pid)] followed by
    the body of [putForks(pid)], nothing in between, gives back the state
    vector it started from, and [putForks] releases no gate: eating and
    stopping wakes nobody who was not to be woken before. *)
Theorem takeForks_putForks_round_trip (e : PhilosophersSync) (pid : Z) :
  well_formed e ->
  settled e ->
  state_at e pid = Some THINKING ->
  exists e1 tr1 e2,
    takeForks_locked pid e = Some (tt, e1, tr1) /\
    putForks_locked pid e1 = Some (tt, e2, []) /\
    states_ e2 = states_ e.
Proof.
  intros Hwf Hset Hthink.
  assert (0 <= pid < numPhils_ e) as Hpid by (eapply state_at_range; eauto).
  destruct (takeForks_locked_cases e pid Hwf Hpid) as (Hwf0 & Hcases).
  set (e0 := with_states _ e) in *.
  assert (exists e1 tr1 s,
            takeForks_locked pid e = Some (tt, e1, tr1) /\
            well_formed e1 /\ numPhils_ e1 = numPhils_ e /\
            states_ e1 = <[Z.to_nat pid := s]> (states_ e))
    as (e1 & tr1 & s & Htake & Hwf1 & Hn1 & Hs1).
  { destruct Hcases as [[_ H] | [_ H]].
    - exists (promoted pid e0), [Release pid], EATING.
      split; [exact H |]. split; [| split; [reflexivity |]].
      + eapply same_frame_well_formed; [apply same_frame_promoted | exact Hwf0].
      + simpl. apply list_insert_insert_eq.
    - exists e0, [], HUNGRY.
      split; [exact H |]. split; [exact Hwf0 |]. split; reflexivity. }
  assert (0 <= pid < numPhils_ e1) as Hpid1 by lia.
  destruct (putForks_locked_run e1 pid Hwf1 Hpid1)
    as (ea & tra & eb & trb & Hwfa & _ & _ & Ha & Hb & Hput).
  set (e1' := with_states _ e1) in *.
  assert (states_ e1' = states_ e) as Hback.
  { unfold e1'. simpl. rewrite Hs1, list_insert_insert_eq.
    apply list_insert_id. unfold state_at, vec_get in Hthink.
    now destruct (pid <? 0). }
  assert (settled e1') as Hset1.
  { intros k Hk Hel. apply (Hset k); [simpl in Hk; lia |].
    apply (eligible_same_states e e1' k); auto. }
  assert (numPhils_ e1' = numPhils_ e) as Hn1' by exact Hn1.
  rewrite tryToEat_settled in Ha; auto;
    [| rewrite Hn1', <- Hn1; apply mod_succ_range; exact Hpid1].
  injection Ha as <- <-.
  rewrite tryToEat_settled in Hb; auto;
    [| rewrite Hn1', <- Hn1; apply mod_pred_range; exact Hpid1].
  injection Hb as <- <-.
  exists e1, tr1, e1'. auto.
Qed.

Lemma all_thinking_settled : settled all_thinking.
Proof.
  intros i Hi (Hs & _). simpl in Hi.
  assert (i = 0 \/ i = 1 \/ i = 2) as [-> | [-> | ->]] by lia; discriminate.
Defined.

Lemma takeForks_putForks_round_trip_witness :
  exists e1 tr1 e2,
    takeForks_locked 1 all_thinking = Some (tt, e1, tr1) /\
    putForks_locked 1 e1 = Some (tt, e2, []) /\
    states_ e2 = states_ all_thinking.
Proof.
  apply (takeForks_putForks_round_trip all_thinking 1).
  - split; [rewrite max_actors_value; simpl; lia | split; reflexivity].
  - exact all_thinking_settled.
  - reflexivity.
Defined.

(** ** The mutex *)





(** X9. A thread inside a locked block is never stuck there: in every
    reachable state, if its actor index is in range, its next action is
    enabled, and after that action or the one following it the mutex is
    free. *)
Theorem lock_holder_never_blocks
  (n : Z) (k : nat) (σ : System) (t : nat) (p : Pc) :
  0 <= n <= max_actors ->
  reachable n k σ ->
  threads σ !! t = Some p ->
  holds_lock p = true ->
  (forall pid, pc_pid p = Some pid -> 0 <= pid < n) ->
  exists σ1,
    step t None σ = Some σ1 /\
    (m_ (engine σ1) = None \/
     exists σ2, step t None σ1 = Some σ2 /\ m_ (engine σ2) = None).
Proof.
  intros Hn Hreach Hp Hhold Hpid.
  destruct (reachable_engine_invariant n k σ Hn Hreach) as (Hnum & Hwf & _).
  assert (t < length (threads σ))%nat as Hlt by (eapply lookup_lt_Some; eauto).
  assert (forall e' p' p'',
            next t p None (engine σ) = Some (e', p') ->
            next t p' None e' = Some (unlock e', p'') ->
            exists σ1,
              step t None σ = Some σ1 /\
              (m_ (engine σ1) = None \/
               exists σ2, step t None σ1 = Some σ2 /\ m_ (engine σ2) = None))
    as Htwo.
  { intros e' p' p'' H1 H2.
    exists {| engine := e'; threads := <[t := p']> (threads σ) |}.
    split; [exact (step_at t None σ p e' p' Hp H1) |].
    right. eexists. split.
    - unfold step. simpl. rewrite list_lookup_insert_eq by exact Hlt.
      rewrite H2. reflexivity.
    - reflexivity. }
  assert (forall p',
            next t p None (engine σ) = Some (unlock (engine σ), p') ->
            exists σ1,
              step t None σ = Some σ1 /\
              (m_ (engine σ1) = None \/
               exists σ2, step t None σ1 = Some σ2 /\ m_ (engine σ2) = None))
    as Hone.
  { intros p' H1.
    exists {| engine := unlock (engine σ); threads := <[t := p']> (threads σ) |}.
    split; [exact (step_at t None σ p _ p' Hp H1) |].
    now left. }
  destruct p; try discriminate.
  - assert (0 <= pid < numPhils_ (engine σ)) as Hr
      by (rewrite Hnum; now apply Hpid).
    destruct (takeForks_locked_cases _ pid Hwf Hr) as (_ & [[_ H] | [_ H]]);
      eapply Htwo; simpl; rewrite ?H; reflexivity.
  - eapply Hone. reflexivity.
  - assert (0 <= pid < numPhils_ (engine σ)) as Hr
      by (rewrite Hnum; now apply Hpid).
    destruct (putForks_locked_run _ pid Hwf Hr)
      as (e1 & tr1 & e2 & tr2 & _ & _ & _ & _ & _ & H).
    eapply Htwo; simpl; rewrite ?H; reflexivity.
  - eapply Hone. reflexivity.
  - eapply Htwo; reflexivity.
  - eapply Hone. reflexivity.
Qed.

Lemma lock_holder_never_blocks_witness :
  exists σ1,
    step 1 None one_eating_one_inside = Some σ1 /\
    (m_ (engine σ1) = None \/
     exists σ2, step 1 None σ1 = Some σ2 /\ m_ (engine σ2) = None).
Proof.
  apply (lock_holder_never_blocks 3 2 one_eating_one_inside 1%nat
           (TakeForks_body 1)).
  - bounds.
  - by_schedule to_one_eating_one_inside.
  - reflexivity.
  - reflexivity.
  - intros pid [= <-]. lia.
Defined.

(** ** The engine without actors *)

(** X10. The engine built with [n = 0] has empty vectors in every state
    the threads can reach; there [getStates()] copies the empty vector,
    and the locked blocks of [takeForks] and [putForks] have no defined
    behaviour for any [pid], since no index is in range. *)
Theorem engine_without_actors (k : nat) (σ : System) (pid : Z) :
  reachable 0 k σ ->
  states_ (engine σ) = [] /\
  sems_ (engine σ) = [] /\
  getStates_locked (engine σ) = Some ([], engine σ, []) /\
  takeForks_locked pid (engine σ) = None /\
  putForks_locked pid (engine σ) = None.
Proof.
  intros Hreach.
  destruct (reachable_engine_invariant 0 k σ) as (Hnum & Hwf & _);
    [bounds | exact Hreach |].
  destruct Hwf as (Hb & Hs & Hg). rewrite Hnum in Hs, Hg. simpl in Hs, Hg.
  apply nil_length_inv in Hs. apply nil_length_inv in Hg.
  split; [exact Hs |]. split; [exact Hg |].
  split; [unfold getStates_locked; now rewrite Hs |].
  assert (state_at (engine σ) pid = None) as Hnone.
  { unfold state_at, vec_get. rewrite Hs. now destruct (pid <? 0). }
  unfold takeForks_locked, putForks_locked, bind, write_state.
  now rewrite Hnone.
Qed.

Lemma engine_without_actors_witness :
  let σ := {| engine := {| numPhils_ := 0; m_ := Some 0%nat;
                           states_ := []; sems_ := [] |};
              threads := [GetStates_body] |} in
  states_ (engine σ) = [] /\
  sems_ (engine σ) = [] /\
  getStates_locked (engine σ) = Some ([], engine σ, []) /\
  takeForks_locked 0 (engine σ) = None /\
  putForks_locked 0 (engine σ) = None.
Proof.
  intros σ. apply (engine_without_actors 1 σ 0).
  by_schedule [(0%nat, Some CallGetStates); (0%nat, None)].
Defined.

(** ** The snapshots and the monitor of the test *)

Ltac split_next H :=
  repeat match type of H with
         | context [match ?x with _ => _ end] => destruct x eqn:?
         end.

Lemma next_to_snapshot t p o e e' res :
  next t p o e = Some (e', GetStates_unlock res) ->
  p = GetStates_body /\ res = states_ e.
Proof.
  intros H.
  destruct p, o as [[] |]; simpl in H; try discriminate;
    try (unfold lock, acquire_sem, wake_sem in H;
         split_next H; discriminate).
  injection H as _ <-. auto.
Qed.

Lemma step_snapshots_sound n t o σ σ' :
  engine_invariant n (engine σ) -> snapshots_sound n σ ->
  step t o σ = Some σ' -> snapshots_sound n σ'.
Proof.
  intros Hinv Hsnap H u res Hu. unfold step in H.
  destruct (threads σ !! t) as [p |] eqn:Hp; [| discriminate].
  destruct (next t p o (engine σ)) as [[e' p'] |] eqn:Hn; [| discriminate].
  injection H as <-. simpl in Hu.
  destruct (decide (u = t)) as [-> | Hne].
  - rewrite list_lookup_insert_eq in Hu by (eapply lookup_lt_Some; eauto).
    injection Hu as ->.
    apply next_to_snapshot in Hn as [_ ->]. eauto.
  - rewrite list_lookup_insert_ne in Hu by congruence. eauto.
Qed.

Lemma reachable_snapshots_sound n k σ :
  0 <= n <= max_actors -> reachable n k σ -> snapshots_sound n σ.
Proof.
  intros Hn (σ0 & sched & Hb & Hr).
  apply boot_inv in Hb as [He Ht].
  assert (engine_invariant n (engine σ0)) as Hinv
    by now apply new_engine_invariant.
  assert (snapshots_sound n σ0) as Hsnap.
  { intros t res Hp. rewrite Ht in Hp.
    apply lookup_repeat in Hp as [Hp _]. discriminate. }
  clear He Ht. revert σ0 Hinv Hsnap Hr.
  induction sched as [| [t o] rest IH]; intros σ0 Hinv Hsnap Hr; simpl in Hr.
  - now injection Hr as <-.
  - destruct (step t o σ0) as [σ1 |] eqn:Hs; [| discriminate].
    apply (IH σ1); [| | exact Hr].
    + eapply step_engine_invariant; eauto.
    + eapply step_snapshots_sound; eauto.
Qed.

Lemma check_from_passes e rounds : forall pid,
  well_formed e -> no_two_in_a_row e ->
  0 <= pid -> pid + Z.of_nat rounds <= numPhils_ e ->
  check_from (numPhils_ e) (states_ e) rounds pid = Some true.
Proof.
  induction rounds as [| r IH]; intros pid Hwf Hno Hpid Hle; [reflexivity |].
  pose proof max_actors_value as Hmax.
  pose proof size_t_modulus_value as Hmod.
  assert (0 <= pid < numPhils_ e) as Hrange by lia.
  assert (numPhils_ e <= max_actors) as Hcap by apply Hwf.
  assert (wrap (pid + 1) = pid + 1) as Hw by (apply wrap_small; lia).
  simpl check_from. rewrite Hw.
  destruct (state_at_defined e pid Hwf Hrange) as [s Hs].
  unfold state_at in Hs. rewrite Hs.
  assert (check_from (numPhils_ e) (states_ e) r (pid + 1) = Some true) as Hrest
    by (apply IH; auto; lia).
  destruct (State_eqb_spec s EATING) as [-> | _]; [| exact Hrest].
  destruct (Z.eqb_spec (numPhils_ e) 0); [lia |].
  destruct (state_at_defined e _ Hwf (mod_succ_range _ _ Hrange)) as [s' Hs'].
  pose proof Hs' as Hs''. unfold state_at in Hs''. rewrite Hs''.
  destruct (State_eqb_spec s' EATING) as [-> | _]; [| exact Hrest].
  exfalso. apply (Hno pid Hrange). split; assumption.
Qed.

(** X11. With two actors or more, every vector that [getStates()] is
    about to return, in any state the threads can reach, passes the loop
    of the test's monitor: all [n] rounds run, every index is in range, and
    no [CHECK] fails, although the engine may have moved on since the copy
    was taken. *)
Theorem monitor_check_passes
  (n : Z) (k : nat) (σ : System) (t : nat) (res : list State) :
  2 <= n <= max_actors ->
  reachable n k σ ->
  threads σ !! t = Some (GetStates_unlock res) ->
  monitor_check n res = Some true.
Proof.
  intros Hn Hreach Hp.
  destruct (reachable_snapshots_sound n k σ ltac:(lia) Hreach t res Hp)
    as (e & (Hnum & Hwf & Hsep) & <-).
  unfold monitor_check. rewrite <- Hnum.
  apply check_from_passes; [exact Hwf | | lia |].
  - apply separated_no_two_in_a_row; [lia | exact Hsep].
  - destruct Hwf as [? _]. lia.
Qed.

Lemma monitor_check_passes_witness :
  monitor_check 3 [EATING; THINKING; THINKING] = Some true.
Proof.
  apply (monitor_check_passes 3 2 one_eating_one_returning 1%nat).
  - bounds.
  - by_schedule to_one_eating_one_returning.
  - reflexivity.
Defined.

(** ** The philosophers of the test: no wake-up is lost *)

Lemma asked_same e e' a :
  states_ e' = states_ e -> sems_ e' = sems_ e -> asked e a -> asked e' a.
Proof.
  unfold asked, permit_kept, state_at, sem_at. now intros -> ->.
Qed.

Lemma asked_same_actor e e' a :
  state_at e' a = state_at e a -> sem_at e' a = sem_at e a ->
  asked e a -> asked e' a.
Proof. unfold asked, permit_kept. now intros -> ->. Qed.

Lemma asked_gate_elsewhere e pid g a :
  0 <= pid -> a <> pid ->
  asked e a -> asked (with_sems (<[Z.to_nat pid := g]> (sems_ e)) e) a.
Proof.
  intros Hpid Hne. apply asked_same_actor; [reflexivity |].
  unfold sem_at. simpl. now apply vec_get_insert_ne.
Qed.

Lemma asked_gate_rewritten e pid g :
  sem_at e pid = Some g ->
  asked e pid -> asked (with_sems (<[Z.to_nat pid := g]> (sems_ e)) e) pid.
Proof.
  intros Hg. apply asked_same_actor; [reflexivity |].
  unfold sem_at in *. simpl. rewrite Hg.
  apply vec_get_insert_eq. eapply vec_get_range; eauto.
Qed.

Lemma takeForks_locked_asked e pid u e' tr :
  well_formed e -> takeForks_locked pid e = Some (u, e', tr) ->
  asked e' pid /\ (forall a, a <> pid -> asked e a -> asked e' a).
Proof.
  intros Hwf H.
  destruct (takeForks_locked_keeps e pid u e' tr Hwf H) as (Hpid & _).
  destruct (takeForks_locked_cases e pid Hwf Hpid) as (Hwf0 & Hcases).
  set (e0 := with_states _ e) in *.
  assert (forall a, a <> pid -> asked e a -> asked e0 a) as H0.
  { intros a Hne. apply asked_same_actor; [| reflexivity].
    apply written_other; [lia | exact Hne]. }
  destruct Hcases as [[_ Hrun] | [_ Hrun]];
    rewrite Hrun in H; injection H as <- <-.
  - split.
    + split; [| right; now apply state_at_promoted_eq].
      intros _. exists (BinarySemaphore.Make 1).
      split; [now apply sem_at_promoted_eq | reflexivity].
    + intros a Hne Ha. apply H0 in Ha; [| exact Hne]. revert Ha.
      destruct (promoted_other e0 pid a ltac:(lia) Hne) as [Hs Hg].
      now apply asked_same_actor.
  - split; [| exact H0].
    assert (state_at e0 pid = Some HUNGRY) as Hh by now apply written_eq.
    split; [| now left]. intros He. congruence.
Qed.

Lemma putForks_locked_actor e pid u e' tr a :
  well_formed e -> putForks_locked pid e = Some (u, e', tr) ->
  a <> pid ->
  left_alone a e e' tr \/ woken a e e' tr.
Proof.
  intros Hwf H Hne.
  destruct (putForks_locked_keeps e pid u e' tr Hwf H) as (Hpid & _).
  destruct (putForks_locked_run e pid Hwf Hpid)
    as (e1 & tr1 & e2 & tr2 & Hwf0 & Hwf1 & Hn1 & H1 & H2 & Hrun).
  rewrite Hrun in H. injection H as _ <- <-.
  set (e0 := with_states _ e) in *.
  pose proof (mod_pred_range _ _ Hpid) as Hl.
  pose proof (mod_succ_range _ _ Hpid) as Hr.
  assert (0 <= (pid - 1) mod numPhils_ e < numPhils_ e1) as Hl1 by lia.
  assert (state_at e0 a = state_at e a) as Hsa
    by (apply written_other; [lia | exact Hne]).
  assert (left_alone a e0 e2 (tr1 ++ tr2) \/ woken a e0 e2 (tr1 ++ tr2))
    as [(Hs & Hg & Hn) | (Hs & He & Hg & Hi)].
  { apply (actor_two_steps a e0 e1 e2).
    - destruct (tryToEat_actor e0 _ e1 tr1 a Hwf0 Hr H1); tauto.
    - destruct (tryToEat_actor e1 _ e2 tr2 a Hwf1 Hl1 H2); tauto. }
  - left. repeat split; [congruence | exact Hg | exact Hn].
  - right. repeat split; [congruence | exact He | exact Hg | exact Hi].
Qed.

Lemma putForks_locked_asked e pid u e' tr a :
  well_formed e -> putForks_locked pid e = Some (u, e', tr) ->
  a <> pid -> asked e a -> asked e' a.
Proof.
  intros Hwf H Hne Ha.
  destruct (putForks_locked_actor e pid u e' tr a Hwf H Hne)
    as [(Hs & Hg & _) | (_ & He & Hg & _)].
  - revert Ha. now apply asked_same_actor.
  - split; [| now right]. intros _. exists (BinarySemaphore.Make 1). auto.
    split; [exact Hg | reflexivity].
Qed.

Lemma acquire_enter_parked g g' :
  BinarySemaphore.acquire_enter g = BinarySemaphore.Parked g' -> g' = g.
Proof.
  unfold BinarySemaphore.acquire_enter.
  destruct (BinarySemaphore.v_ g =? 1); [discriminate | now intros [= <-]].
Qed.

Ltac own_index Hcall Hown :=
  let q := fresh "q" in
  let Hq := fresh "Hq" in
  simpl; intros q Hq;
  first [ discriminate Hq
        | injection Hq as <-;
          first [ exact Hcall | apply Hown; reflexivity ] ].

Ltac not_awaiting := simpl; intros Hq; discriminate Hq.

Lemma next_driver t p o e e' p' :
  well_formed e -> own_call (t, o) ->
  (forall pid, pc_pid p = Some pid -> pid = Z.of_nat t) ->
  next t p o e = Some (e', p') ->
  (forall pid, pc_pid p' = Some pid -> pid = Z.of_nat t) /\
  (awaits_permit p' = true ->
   (awaits_permit p = true -> asked e (Z.of_nat t)) -> asked e' (Z.of_nat t)) /\
  (forall a, a <> Z.of_nat t -> asked e a -> asked e' a).
Proof.
  intros Hwf Hcall Hown H.
  assert (forall pid, pc_pid p = Some pid -> 0 <= pid) as Hnn
    by (intros pid Hp; apply Hown in Hp; lia).
  destruct p, o as [[] |]; simpl in H, Hcall; try discriminate;
    try (unfold lock in H; destruct (m_ e); [discriminate |]);
    try (injection H as <- <-;
         (split; [own_index Hcall Hown | split; [not_awaiting | auto]])).
  - (* the locked block of takeForks *)
    destruct (takeForks_locked pid e) as [[[u e1] tr] |] eqn:Hb; [| discriminate].
    injection H as <- <-.
    pose proof (Hown pid eq_refl) as Hme. simpl in Hme.
    destruct (takeForks_locked_asked e pid u e1 tr Hwf Hb) as [Hask Hothers].
    split; [own_index Hcall Hown |]. rewrite <- Hme. split; auto.
  - (* the unlock of takeForks *)
    injection H as <- <-.
    split; [own_index Hcall Hown |].
    split; [intros _ Ha; apply Ha; reflexivity | auto].
  - (* acquire *)
    unfold acquire_sem in H.
    destruct (sem_at e pid) as [g |] eqn:Hg; [| discriminate].
    pose proof (Hown pid eq_refl) as Hme. simpl in Hme.
    destruct (BinarySemaphore.acquire_enter g) as [g' | g'] eqn:Ha;
      injection H as <- <-;
      (split; [own_index Hcall Hown |]); rewrite <- Hme.
    + split; [not_awaiting |].
      intros a Hne. apply asked_gate_elsewhere; [lia | exact Hne].
    + apply acquire_enter_parked in Ha as ->. split.
      * intros _ Hask. apply asked_gate_rewritten; [exact Hg |].
        apply Hask. reflexivity.
      * intros a Hne. apply asked_gate_elsewhere; [lia | exact Hne].
  - (* the end of the wait *)
    unfold wake_sem in H.
    destruct (sem_at e pid) as [g |] eqn:Hg; [| discriminate].
    pose proof (Hown pid eq_refl) as Hme. simpl in Hme.
    destruct (BinarySemaphore.acquire_wake g) as [g' |] eqn:Ha; [| discriminate].
    injection H as <- <-.
    split; [own_index Hcall Hown |]. rewrite <- Hme.
    split; [not_awaiting |].
    intros a Hne. apply asked_gate_elsewhere; [lia | exact Hne].
  - (* the body of putForks *)
    destruct (putForks_locked pid e) as [[[u e1] tr] |] eqn:Hb; [| discriminate].
    injection H as <- <-.
    pose proof (Hown pid eq_refl) as Hme. simpl in Hme.
    split; [own_index Hcall Hown |]. rewrite <- Hme.
    split; [not_awaiting |].
    intros a Hne. now apply (putForks_locked_asked e pid u e1 tr).
Qed.

Lemma step_driver_invariant t o σ σ' :
  well_formed (engine σ) -> own_call (t, o) ->
  driver_invariant σ -> step t o σ = Some σ' -> driver_invariant σ'.
Proof.
  intros Hwf Hcall Hinv H. unfold step in H.
  destruct (threads σ !! t) as [p |] eqn:Hp; [| discriminate].
  destruct (next t p o (engine σ)) as [[e' p'] |] eqn:Hn; [| discriminate].
  injection H as <-.
  destruct (Hinv t p Hp) as [Hown Hask].
  destruct (next_driver t p o _ e' p' Hwf Hcall Hown Hn) as (Hown' & Hme & Hothers).
  intros u q Hq. simpl in *.
  destruct (decide (u = t)) as [-> | Hne].
  - rewrite list_lookup_insert_eq in Hq by (eapply lookup_lt_Some; eauto).
    injection Hq as <-. split; [exact Hown' |]. auto.
  - rewrite list_lookup_insert_ne in Hq by congruence.
    destruct (Hinv u q Hq) as [Hu Ha]. split; [exact Hu |].
    intros Haw. apply Hothers; [lia | auto].
Qed.

Lemma driver_reachable_reachable n k σ :
  driver_reachable n k σ -> reachable n k σ.
Proof. intros (σ0 & sched & Hb & _ & Hr). now exists σ0, sched. Qed.

Lemma driver_reachable_invariant n k σ :
  0 <= n <= max_actors -> driver_reachable n k σ -> driver_invariant σ.
Proof.
  intros Hn (σ0 & sched & Hb & Hcalls & Hr).
  apply boot_inv in Hb as [He Ht].
  assert (engine_invariant n (engine σ0)) as Hinv
    by now apply new_engine_invariant.
  assert (driver_invariant σ0) as Hdrv.
  { intros t p Hp. rewrite Ht in Hp.
    apply lookup_repeat in Hp as [-> _]. split; discriminate. }
  clear He Ht. revert σ0 Hinv Hdrv Hr.
  induction Hcalls as [| [t o] rest Hc _ IH]; intros σ0 Hinv Hdrv Hr;
    simpl in Hr.
  - now injection Hr as <-.
  - destruct (step t o σ0) as [σ1 |] eqn:Hs; [| discriminate].
    apply (IH σ1); [| | exact Hr].
    + eapply step_engine_invariant; eauto.
    + eapply step_driver_invariant; eauto. apply Hinv.
Qed.

(** X12. Let every thread call [takeForks] and [putForks] for its own
    index only, as the philosophers of the test do. Then in every state
    they can reach, a thread that stands before [acquire()] in
    [takeForks(pid)] or is parked in its wait either can finish the call
    with its next action, or its actor is HUNGRY next to an EATING actor.
    In particular the release made by a promotion is never lost: an actor
    that is EATING finds its gate available. *)
Theorem promoted_philosopher_returns
  (n : Z) (k : nat) (σ : System) (t : nat) (pid : Z) :
  0 <= n <= max_actors ->
  driver_reachable n k σ ->
  threads σ !! t = Some (TakeForks_acquire pid) \/
  threads σ !! t = Some (TakeForks_wait pid) ->
  (state_at (engine σ) pid = Some EATING /\
   exists σ', step t None σ = Some σ' /\ threads σ' !! t = Some Idle) \/
  (state_at (engine σ) pid = Some HUNGRY /\
   (state_at (engine σ) ((pid - 1) mod n) = Some EATING \/
    state_at (engine σ) ((pid + 1) mod n) = Some EATING)).
Proof.
  intros Hn Hdrv Hp.
  pose proof (driver_reachable_reachable n k σ Hdrv) as Hreach.
  pose proof (driver_reachable_invariant n k σ Hn Hdrv) as Hinv.
  destruct (reachable_engine_invariant n k σ Hn Hreach) as (Hnum & Hwf & _).
  pose proof (reachable_settled n k σ Hn Hreach) as Hset.
  assert (exists p, threads σ !! t = Some p /\ pc_pid p = Some pid /\
                    awaits_permit p = true /\
                    (p = TakeForks_acquire pid \/ p = TakeForks_wait pid))
    as (p & Hpc & Hpid & Haw & Hwhich)
    by (destruct Hp; eauto 10).
  destruct (Hinv t p Hpc) as [Hown Hask].
  rewrite <- (Hown pid Hpid) in Hask.
  destruct (Hask Haw) as (Hkept & [Hh | He]).
  - right. split; [exact Hh |].
    assert (0 <= pid < numPhils_ (engine σ)) as Hrange
      by (eapply state_at_range; eauto).
    specialize (Hset pid Hrange). unfold eligible in Hset.
    rewrite Hnum in Hset.
    destruct (state_at (engine σ) ((pid - 1) mod n)) as [[] |];
      destruct (state_at (engine σ) ((pid + 1) mod n)) as [[] |]; auto;
      exfalso; apply Hset; repeat split; (assumption || discriminate).
  - left. split; [exact He |].
    destruct (Hkept He) as (g & Hg & Hav).
    unfold BinarySemaphore.available in Hav.
    assert (t < length (threads σ))%nat as Hlt by (eapply lookup_lt_Some; eauto).
    assert (exists e', next t p None (engine σ) = Some (e', Idle)) as [e' Hnext].
    { destruct Hwhich as [-> | ->]; simpl.
      - unfold acquire_sem, BinarySemaphore.acquire_enter.
        rewrite Hg, Hav. simpl. eauto.
      - unfold wake_sem, BinarySemaphore.acquire_wake.
        rewrite Hg, Hav. simpl. eauto. }
    exists {| engine := e'; threads := <[t := Idle]> (threads σ) |}.
    split; [exact (step_at t None σ p e' Idle Hpc Hnext) |].
    simpl. now apply list_lookup_insert_eq.
Qed.

Lemma promoted_philosopher_returns_witness :
  (state_at (engine driver_one_parked) 1 = Some EATING /\
   exists σ', step 1 None driver_one_parked = Some σ' /\
              threads σ' !! 1%nat = Some Idle) \/
  (state_at (engine driver_one_parked) 1 = Some HUNGRY /\
   (state_at (engine driver_one_parked) ((1 - 1) mod 3) = Some EATING \/
    state_at (engine driver_one_parked) ((1 + 1) mod 3) = Some EATING)).
Proof.
  apply (promoted_philosopher_returns 3 3 driver_one_parked 1%nat 1).
  - bounds.
  - eexists. exists to_one_eating_one_parked.
    split; [reflexivity |]. split; [| reflexivity].
    repeat constructor.
  - right. reflexivity.
Defined.

(** ** The test of the gate *)

Lemma test_step_invariant v0 w τ τ' :
  BinarySemaphoreTest.invariant v0 τ ->
  BinarySemaphoreTest.step w τ = Some τ' ->
  BinarySemaphoreTest.invariant v0 τ'.
Proof.
  destruct τ as [g x m a].
  unfold BinarySemaphoreTest.invariant, BinarySemaphoreTest.before_release.
  intros Hinv H.
  destruct w; simpl in H.
  - unfold BinarySemaphoreTest.step_main in H; simpl in *.
    destruct m; simpl in *;
      try (destruct (BinarySemaphoreTest.in_int (x0 * 2)); [| discriminate]);
      try (destruct a; try discriminate);
      try discriminate;
      injection H as <-; simpl;
      intuition (subst; auto; try discriminate; try congruence).
  - unfold BinarySemaphoreTest.step_adder, BinarySemaphore.acquire_enter,
      BinarySemaphore.acquire_wake in H; simpl in *.
    destruct a; try discriminate;
      try (destruct (Z.eqb_spec (BinarySemaphore.v_ g) 1); [| try discriminate]);
      injection H as <-; destruct m; simpl in *;
      intuition (subst; simpl in *; auto; try discriminate; try congruence;
                 try lia).
Qed.

Lemma test_run_invariant v0 sched : forall τ τ',
  BinarySemaphoreTest.invariant v0 τ ->
  BinarySemaphoreTest.run sched τ = Some τ' ->
  BinarySemaphoreTest.invariant v0 τ'.
Proof.
  induction sched as [| w rest IH]; intros τ τ' Hinv H; simpl in H.
  - now injection H as <-.
  - destruct (BinarySemaphoreTest.step w τ) as [τ1 |] eqn:Hs; [| discriminate].
    apply (IH τ1); [| exact H]. eapply test_step_invariant; eauto.
Qed.

Lemma test_init_invariant v0 :
  BinarySemaphoreTest.invariant v0 (BinarySemaphoreTest.init v0).
Proof. repeat split. now left. Qed.

(** X13. In [BinarySemaphoreTest.Basic], whatever the interleaving of the
    two threads: when the test's thread has made its comparison, the adder
    has finished and [v] is twice its initial value plus one, the
    increment having come after the doubling; started from 1 as in the
    source, [v] is 3 and [EXPECT_EQ(3, v)] holds. *)
Theorem semaphore_test_orders_the_writes
  (v0 : Z) (sched : list BinarySemaphoreTest.Who)
  (τ : BinarySemaphoreTest.T) (passed : bool) :
  BinarySemaphoreTest.run sched (BinarySemaphoreTest.init v0) = Some τ ->
  BinarySemaphoreTest.main τ = BinarySemaphoreTest.Main_done passed ->
  BinarySemaphoreTest.adder τ = BinarySemaphoreTest.Adder_done /\
  BinarySemaphoreTest.v τ = BinarySemaphoreTest.int_wrap (v0 * 2 + 1) /\
  passed = (3 =? BinarySemaphoreTest.v τ) /\
  (v0 = 1 -> BinarySemaphoreTest.v τ = 3 /\ passed = true).
Proof.
  intros Hrun Hdone.
  pose proof (test_run_invariant v0 sched _ τ (test_init_invariant v0) Hrun)
    as Hinv.
  unfold BinarySemaphoreTest.invariant in Hinv. rewrite Hdone in Hinv.
  destruct Hinv as (Hv & Ha & Hp).
  split; [exact Ha |]. split; [exact Hv |]. split; [exact Hp |].
  intros ->. rewrite Hp, Hv. split; reflexivity.
Qed.

Lemma semaphore_test_orders_the_writes_witness :
  let τ := {| BinarySemaphoreTest.bs := BinarySemaphore.Make 1;
              BinarySemaphoreTest.v := 3;
              BinarySemaphoreTest.main := BinarySemaphoreTest.Main_done true;
              BinarySemaphoreTest.adder := BinarySemaphoreTest.Adder_done |} in
  BinarySemaphoreTest.adder τ = BinarySemaphoreTest.Adder_done /\
  BinarySemaphoreTest.v τ = BinarySemaphoreTest.int_wrap (1 * 2 + 1) /\
  true = (3 =? BinarySemaphoreTest.v τ) /\
  (1 = 1 -> BinarySemaphoreTest.v τ = 3 /\ true = true).
Proof.
  intros τ.
  apply (semaphore_test_orders_the_writes 1
           [BinarySemaphoreTest.Adder; BinarySemaphoreTest.Main;
            BinarySemaphoreTest.Main; BinarySemaphoreTest.Main;
            BinarySemaphoreTest.Adder; BinarySemaphoreTest.Adder;
            BinarySemaphoreTest.Main; BinarySemaphoreTest.Main] τ true);
    reflexivity.
Defined.

Lemma test_step_actions_left w τ τ' :
  BinarySemaphoreTest.step w τ = Some τ' ->
  (BinarySemaphoreTest.actions_left τ' < BinarySemaphoreTest.actions_left τ)%nat.
Proof.
  destruct τ as [g x m a]. unfold BinarySemaphoreTest.actions_left.
  destruct w; simpl.
  - unfold BinarySemaphoreTest.step_main; simpl.
    destruct m; simpl;
      try (destruct (BinarySemaphoreTest.in_int (x0 * 2)); [| discriminate]);
      try (destruct a; try discriminate);
      try discriminate;
      intros [= <-]; simpl; lia.
  - unfold BinarySemaphoreTest.step_adder, BinarySemaphore.acquire_enter,
      BinarySemaphore.acquire_wake; simpl.
    destruct a; simpl; try discriminate;
      try (destruct (BinarySemaphore.v_ g =? 1); try discriminate);
      intros [= <-]; simpl; lia.
Qed.

Lemma test_run_actions_left sched : forall τ τ',
  BinarySemaphoreTest.run sched τ = Some τ' ->
  (length sched + BinarySemaphoreTest.actions_left τ'
   <= BinarySemaphoreTest.actions_left τ)%nat.
Proof.
  induction sched as [| w rest IH]; intros τ τ' H; simpl in H.
  - injection H as <-. simpl. lia.
  - destruct (BinarySemaphoreTest.step w τ) as [τ1 |] eqn:Hs; [| discriminate].
    apply IH in H. apply test_step_actions_left in Hs. simpl. lia.
Qed.

(** X14. [BinarySemaphoreTest.Basic] always comes to its end: no
    interleaving has more than eight actions, and, the doubling being
    within [int], a state in which the test's thread has not yet made its
    comparison always has an action that can be taken (the adder is never
    parked for good, the join is never waited for in vain). *)
Theorem semaphore_test_terminates
  (v0 : Z) (sched : list BinarySemaphoreTest.Who) (τ : BinarySemaphoreTest.T) :
  BinarySemaphoreTest.in_int (v0 * 2) = true ->
  BinarySemaphoreTest.run sched (BinarySemaphoreTest.init v0) = Some τ ->
  (length sched <= 8)%nat /\
  ((forall passed,
      BinarySemaphoreTest.main τ <> BinarySemaphoreTest.Main_done passed) ->
   exists w τ', BinarySemaphoreTest.step w τ = Some τ').
Proof.
  intros Hint Hrun. split.
  - apply test_run_actions_left in Hrun.
    change (BinarySemaphoreTest.actions_left (BinarySemaphoreTest.init v0))
      with 8%nat in Hrun.
    lia.
  - intros Hnot.
    pose proof (test_run_invariant v0 sched _ τ (test_init_invariant v0) Hrun)
      as Hinv.
    destruct τ as [g x m a].
    unfold BinarySemaphoreTest.invariant, BinarySemaphoreTest.before_release
      in Hinv.
    simpl in *. destruct m; simpl in Hinv.
    + exists BinarySemaphoreTest.Main. eexists. reflexivity.
    + exists BinarySemaphoreTest.Main. destruct Hinv as (-> & _).
      unfold BinarySemaphoreTest.step, BinarySemaphoreTest.step_main. simpl.
      rewrite Hint. eauto.
    + exists BinarySemaphoreTest.Main. eexists. reflexivity.
    + destruct Hinv as [(_ & Hg & [-> | ->]) | [(_ & ->) | (_ & ->)]].
      * exists BinarySemaphoreTest.Adder.
        unfold BinarySemaphoreTest.step, BinarySemaphoreTest.step_adder,
          BinarySemaphore.acquire_enter. simpl. rewrite Hg. simpl. eauto.
      * exists BinarySemaphoreTest.Adder.
        unfold BinarySemaphoreTest.step, BinarySemaphoreTest.step_adder,
          BinarySemaphore.acquire_wake. simpl. rewrite Hg. simpl. eauto.
      * exists BinarySemaphoreTest.Adder. eexists. reflexivity.
      * exists BinarySemaphoreTest.Main. eexists. reflexivity.
    + exists BinarySemaphoreTest.Main. eexists. reflexivity.
    + exfalso. now apply (Hnot passed).
Qed.

Lemma semaphore_test_terminates_witness :
  (length [BinarySemaphoreTest.Adder; BinarySemaphoreTest.Main] <= 8)%nat /\
  ((forall passed,
      BinarySemaphoreTest.main
        {| BinarySemaphoreTest.bs := BinarySemaphore.new 0;
           BinarySemaphoreTest.v := 1;
           BinarySemaphoreTest.main := BinarySemaphoreTest.Main_store 1;
           BinarySemaphoreTest.adder := BinarySemaphoreTest.Adder_wait |}
      <> BinarySemaphoreTest.Main_done passed) ->
   exists w τ',
     BinarySemaphoreTest.step w
       {| BinarySemaphoreTest.bs := BinarySemaphore.new 0;
          BinarySemaphoreTest.v := 1;
          BinarySemaphoreTest.main := BinarySemaphoreTest.Main_store 1;
          BinarySemaphoreTest.adder := BinarySemaphoreTest.Adder_wait |}
     = Some τ').
Proof.
  apply (semaphore_test_terminates 1
           [BinarySemaphoreTest.Adder; BinarySemaphoreTest.Main]);
    reflexivity.
Defined.

(** ** When [takeForks] returns at once and when it parks *)

Lemma eligible_once_hungry e pid :
  well_formed e -> 0 <= pid < numPhils_ e ->
  eligible (with_states (<[Z.to_nat pid := HUNGRY]> (states_ e)) e) pid
  <-> neighbours_free e pid.
Proof.
  intros Hwf Hpid.
  pose proof (mod_pred_range _ _ Hpid) as Hl.
  pose proof (mod_succ_range _ _ Hpid) as Hr.
  unfold eligible, neighbours_free.
  change (numPhils_ (with_states _ e)) with (numPhils_ e).
  rewrite !state_at_with_states by (assumption || lia).
  rewrite Z.eqb_refl.
  destruct (Z.eqb_spec ((pid - 1) mod numPhils_ e) pid) as [El | Nl];
    destruct (Z.eqb_spec ((pid + 1) mod numPhils_ e) pid) as [Er | Nr];
    (split;
     [ intros (_ & HL & HR); split; intros ?; (assumption || contradiction)
     | intros (HL & HR); split; [reflexivity |];
       split; first [discriminate | now apply HL | now apply HR] ]).
Qed.

Lemma solo_takeForks t pid e eL u e1 tr r :
  lock t e = Some eL ->
  takeForks_locked pid eL = Some (u, e1, tr) ->
  acquire_sem pid (unlock e1) = Some r ->
  solo t [Some (CallTakeForks pid); None; None; None; None] Idle e = Some r.
Proof.
  intros H1 H2 H3. cbn [solo next]. rewrite H1. cbn [solo next].
  rewrite H2. cbn [solo next]. rewrite H3. now destruct r.
Qed.

(** X15. [takeForks(pid)] by a thread alone, on a well-formed engine with
    the mutex free, [g] being the gate of [pid]: the call has defined
    behaviour up to its return or its wait, and leaves the mutex free. It
    returns without a wait exactly when no neighbour is EATING or the
    gate was already available, and then leaves the gate unavailable;
    otherwise the thread is parked with its actor HUNGRY and the gate as it
    was. The actor is EATING afterwards exactly when no neighbour is
    EATING: a gate found available lets the call return with its actor
    merely HUNGRY. *)
Theorem takeForks_alone_returns_or_parks
  (e : PhilosophersSync) (ths : list Pc) (t : nat) (pid : Z)
  (g : BinarySemaphore.t) :
  well_formed e ->
  m_ e = None ->
  ths !! t = Some Idle ->
  sem_at e pid = Some g ->
  exists σ',
    run (takeForks_alone t pid) {| engine := e; threads := ths |} = Some σ' /\
    m_ (engine σ') = None /\
    (state_at (engine σ') pid = Some EATING <-> neighbours_free e pid) /\
    (neighbours_free e pid \/ BinarySemaphore.v_ g = 1 ->
     threads σ' !! t = Some Idle /\
     sem_at (engine σ') pid = Some (BinarySemaphore.Make 0)) /\
    (~ neighbours_free e pid -> BinarySemaphore.v_ g <> 1 ->
     threads σ' !! t = Some (TakeForks_wait pid) /\
     state_at (engine σ') pid = Some HUNGRY /\
     sem_at (engine σ') pid = Some g).
Proof.
  intros Hwf Hm Ht Hg.
  assert (0 <= pid < numPhils_ e) as Hpid.
  { destruct Hwf as (Hn & _ & Hlen). apply vec_get_range in Hg. lia. }
  assert (t < length ths)%nat as Hlt by (eapply lookup_lt_Some; eauto).
  set (eL := with_m (Some t) e).
  assert (lock t e = Some eL) as Hlock by (unfold lock; now rewrite Hm).
  assert (well_formed eL) as HwfL by exact Hwf.
  destruct (takeForks_locked_cases eL pid HwfL Hpid) as (Hwf0 & Hcases).
  set (e0 := with_states _ eL) in *.
  assert (eligible e0 pid <-> neighbours_free e pid) as Hfree
    by (apply (eligible_once_hungry eL pid HwfL Hpid)).
  assert (0 <= pid < Z.of_nat (length (sems_ e0))) as Hrange
    by (destruct Hwf0 as (? & _ & ->); simpl; lia).
  change (takeForks_alone t pid)
    with (map (pair t) [Some (CallTakeForks pid); None; None; None; None]).
  assert (forall e2 p2,
            solo t [Some (CallTakeForks pid); None; None; None; None] Idle e
            = Some (e2, p2) ->
            run (map (pair t) [Some (CallTakeForks pid); None; None; None; None])
                {| engine := e; threads := ths |}
            = Some {| engine := e2; threads := <[t := p2]> ths |}) as Hsolo
    by (intros e2 p2 Hs;
        exact (run_solo t _ {| engine := e; threads := ths |} Idle e2 p2 Ht Hs)).
  destruct Hcases as [[Hel Hrun] | [Hnel Hrun]].
  - (* promoted inside the call *)
    set (e1 := promoted pid e0) in *.
    assert (acquire_sem pid (unlock e1)
            = Some (with_sems (<[Z.to_nat pid := BinarySemaphore.Make 0]>
                                 (sems_ (unlock e1))) (unlock e1), Idle)) as Hacq.
    { unfold acquire_sem.
      change (sem_at (unlock e1) pid) with (sem_at e1 pid).
      unfold e1. now rewrite sem_at_promoted_eq. }
    eexists. split; [apply Hsolo; eapply solo_takeForks; eauto |].
    cbn [engine threads].
    assert (state_at e1 pid = Some EATING) as He1
      by now apply state_at_promoted_eq.
    split; [reflexivity |]. split; [| split].
    + split; [intros _; now apply Hfree | intros _; exact He1].
    + intros _. split; [now apply list_lookup_insert_eq |].
      unfold sem_at. simpl. apply vec_get_insert_eq.
      rewrite length_insert. exact Hrange.
    + intros Hn. exfalso. apply Hn. now apply Hfree.
  - (* left HUNGRY by the block *)
    assert (state_at e0 pid = Some HUNGRY) as Hh by now apply written_eq.
    assert (sem_at (unlock e0) pid = Some g) as Hg0 by exact Hg.
    destruct (Z.eqb_spec (BinarySemaphore.v_ g) 1) as [Hv | Hv].
    + assert (acquire_sem pid (unlock e0)
              = Some (with_sems (<[Z.to_nat pid := BinarySemaphore.Make 0]>
                                   (sems_ (unlock e0))) (unlock e0), Idle)) as Hacq.
      { unfold acquire_sem, BinarySemaphore.acquire_enter.
        rewrite Hg0, Hv. reflexivity. }
      eexists. split; [apply Hsolo; eapply solo_takeForks; eauto |].
      cbn [engine threads].
      split; [reflexivity |]. split; [| split].
      * change (state_at (with_sems _ (unlock e0)) pid) with (state_at e0 pid).
        rewrite Hh. split; [discriminate |].
        intros Hf. exfalso. apply Hnel. now apply Hfree.
      * intros _. split; [now apply list_lookup_insert_eq |].
        unfold sem_at. simpl. apply vec_get_insert_eq. exact Hrange.
      * intros _ Hne. contradiction.
    + assert (acquire_sem pid (unlock e0)
              = Some (with_sems (<[Z.to_nat pid := g]> (sems_ (unlock e0)))
                                (unlock e0), TakeForks_wait pid)) as Hacq.
      { unfold acquire_sem, BinarySemaphore.acquire_enter. rewrite Hg0.
        destruct (Z.eqb_spec (BinarySemaphore.v_ g) 1); [contradiction |].
        reflexivity. }
      eexists. split; [apply Hsolo; eapply solo_takeForks; eauto |].
      cbn [engine threads].
      split; [reflexivity |]. split; [| split].
      * change (state_at (with_sems _ (unlock e0)) pid) with (state_at e0 pid).
        rewrite Hh. split; [discriminate |].
        intros Hf. exfalso. apply Hnel. now apply Hfree.
      * intros [Hf | Hv']; [| contradiction].
        exfalso. apply Hnel. now apply Hfree.
      * intros _ _. split; [now apply list_lookup_insert_eq |].
        split; [exact Hh |].
        unfold sem_at. simpl. apply vec_get_insert_eq. exact Hrange.
Qed.

Lemma takeForks_alone_returns_or_parks_witness :
  let e := with_m None both_neighbours_hungry in
  exists σ',
    run (takeForks_alone 1 1) {| engine := e; threads := [Idle; Idle] |}
    = Some σ' /\
    m_ (engine σ') = None /\
    (state_at (engine σ') 1 = Some EATING <-> neighbours_free e 1) /\
    (neighbours_free e 1 \/
     BinarySemaphore.v_ (BinarySemaphore.Make 0) = 1 ->
     threads σ' !! 1%nat = Some Idle /\
     sem_at (engine σ') 1 = Some (BinarySemaphore.Make 0)) /\
    (~ neighbours_free e 1 ->
     BinarySemaphore.v_ (BinarySemaphore.Make 0) <> 1 ->
     threads σ' !! 1%nat = Some (TakeForks_wait 1) /\
     state_at (engine σ') 1 = Some HUNGRY /\
     sem_at (engine σ') 1 = Some (BinarySemaphore.Make 0)).
Proof.
  apply (takeForks_alone_returns_or_parks
           (with_m None both_neighbours_hungry) [Idle; Idle] 1%nat 1
           (BinarySemaphore.Make 0)).
  - split; [rewrite max_actors_value; simpl; lia | split; reflexivity].
  - reflexivity.
  - reflexivity.
  - reflexivity.
Defined.

(** ** The vectors keep their size *)

(** X16. The engine never changes [numPhils_] nor the size of its two
    vectors: in every state reachable from the engine built for [n]
    actors there are [n] states and [n] gates, so [states_[pid]] and
    [sems_[pid]] exist for every [0 <= pid < n] and for no other [pid]. *)
Theorem engine_shape_is_fixed (n : Z) (k : nat) (σ : System) (pid : Z) :
  0 <= n <= max_actors ->
  reachable n k σ ->
  numPhils_ (engine σ) = n /\
  Z.of_nat (length (states_ (engine σ))) = n /\
  Z.of_nat (length (sems_ (engine σ))) = n /\
  (is_Some (state_at (engine σ) pid) <-> 0 <= pid < n) /\
  (is_Some (sem_at (engine σ) pid) <-> 0 <= pid < n).
Proof.
  intros Hn Hreach.
  destruct (reachable_engine_invariant n k σ Hn Hreach)
    as (Hnum & (_ & Hs & Hg) & _).
  rewrite Hnum in Hs, Hg.
  split; [exact Hnum |]. split; [lia |]. split; [lia |].
  unfold state_at, sem_at. split; split.
  - intros [s Hx]. apply vec_get_range in Hx. lia.
  - intros Hp. destruct (vec_get_defined (states_ (engine σ)) pid) as [s Hx];
      [lia | eauto].
  - intros [g Hx]. apply vec_get_range in Hx. lia.
  - intros Hp. destruct (vec_get_defined (sems_ (engine σ)) pid) as [g Hx];
      [lia | eauto].
Qed.

Lemma engine_shape_is_fixed_witness :
  numPhils_ (engine one_eating_one_parked) = 3 /\
  Z.of_nat (length (states_ (engine one_eating_one_parked))) = 3 /\
  Z.of_nat (length (sems_ (engine one_eating_one_parked))) = 3 /\
  (is_Some (state_at (engine one_eating_one_parked) 2) <-> 0 <= 2 < 3) /\
  (is_Some (sem_at (engine one_eating_one_parked) 2) <-> 0 <= 2 < 3).
Proof.
  apply (engine_shape_is_fixed 3 2 one_eating_one_parked 2).
  - bounds.
  - by_schedule to_one_eating_one_parked.
Defined.
